(** * Real-Time-Video-Translation: app.py

    Shallow embedding of the capture / segmentation loop, the transcription
    and translation loop, and the shutdown protocol of [SubtitleOverlay]
    (src/app.py).

    - Audio frames and segments are byte strings ([list Byte.byte]), as the
      [bytes] objects of the source.
    - Float samples (numpy float32) are modelled as rationals [Q]; the only
      float operations the core performs on them are multiplication and
      division by 32768 = 2^15, which are exact in float32 for the values
      involved.
    - External capabilities (the VAD verdict, the recorder, the Whisper model,
      the OpenAI client) are inputs of the functions and labels of the step
      relation: they are never assumed to be pure or to succeed. *)

From Stdlib Require Import String Ascii ZArith QArith Qabs List Lia Sorted.
From Stdlib Require Import Strings.Byte.
Import ListNotations.
Open Scope Z_scope.

(* ------------------------------------------------------------------ *)
(** ** Constants (app.py lines 16-19) *)

Definition SAMPLERATE : Z := 16000.
Definition FRAME_MS : Z := 30.
(** [int(SAMPLERATE * FRAME_MS / 1000)]: a positive true division truncated. *)
Definition FRAME_SIZE : Z := (SAMPLERATE * FRAME_MS) / 1000.
(** [int(10_000 / FRAME_MS)] = int(333.33...) = 333. *)
Definition MAX_CHUNK_FRAMES : nat := Z.to_nat (10000 / FRAME_MS).

Definition bytes := list Byte.byte.

(** [b''.join(parts)] *)
Definition join (parts : list bytes) : bytes := List.concat parts.

(* ------------------------------------------------------------------ *)
(** ** The segmenter: body of the [while] loop of [_capture_loop]
    (lines 61-68).  [speech] is the verdict [self.vad.is_speech(pcm16,
    SAMPLERATE)] returned by the external VAD for this frame (webrtcvad keeps
    internal state, so the verdict is an input, not a function of the frame).
    The result is the new [voiced_frames] and the chunk put on
    [audio_queue], if any. *)

Definition seg_step (voiced_frames : list bytes) (pcm16 : bytes) (speech : bool)
  : list bytes * option bytes :=
  if speech then
    let vf := voiced_frames ++ [pcm16] in
    if (MAX_CHUNK_FRAMES <=? length vf)%nat then ([], Some (join vf))
    else (vf, None)
  else
    match voiced_frames with
    | [] => (voiced_frames, None)
    | _ :: _ => ([], Some (join voiced_frames))
    end.

(** Running the segmenter over a sequence of (frame, verdict) pairs; the
    second component is the sequence of chunks put on [audio_queue], in
    order. *)
Fixpoint seg_run (voiced_frames : list bytes) (input : list (bytes * bool))
  : list bytes * list bytes :=
  match input with
  | [] => (voiced_frames, [])
  | (f, b) :: rest =>
      let '(vf', out) := seg_step voiced_frames f b in
      let '(vf'', outs) := seg_run vf' rest in
      (vf'', match out with Some c => c :: outs | None => outs end)
  end.

(** A voiced frame, as the pair fed to [seg_run]. *)
Definition voiced (f : bytes) : bytes * bool := (f, true).

(* ------------------------------------------------------------------ *)
(** ** Float samples and PCM16 (lines 59-60 and 74)

    numpy float32 values are modelled by the rationals they denote.  A float
    to int cast truncates toward zero.  numpy's [.astype(np.int16)] is the C
    cast [(npy_short)value], which the compiler emits as a conversion to a
    32-bit int followed by keeping the low 16 bits: inside the int32 range
    the result wraps modulo 2^16, it does not saturate.  Outside the int32
    range the conversion is platform-dependent; on x86-64 ([cvttss2si]) it
    yields the "integer indefinite" value -2^31, which is what [c_int]
    models (arm64's [fcvtzs] saturates instead). *)

Definition trunc (x : Q) : Z := Z.quot (Qnum x) (Zpos (Qden x)).

(** Two's-complement reduction of an integer to 16 bits. *)
Definition wrap16 (z : Z) : Z :=
  let u := z mod 65536 in if u <? 32768 then u else u - 65536.

(** Conversion of a truncated float to a 32-bit C int (x86-64). *)
Definition c_int (z : Z) : Z :=
  if (-2147483648 <=? z) && (z <=? 2147483647) then z else -2147483648.

(** [(mono * 32768).astype(np.int16)] for one sample. *)
Definition to_int16 (x : Q) : Z := wrap16 (c_int (trunc (x * inject_Z 32768))).

Definition byte_of_Z (z : Z) : Byte.byte :=
  match Byte.of_N (Z.to_N (z mod 256)) with Some b => b | None => Byte.x00 end.

(** [.tobytes()] of an int16 array: little-endian, two bytes per sample. *)
Fixpoint tobytes (vs : list Z) : bytes :=
  match vs with
  | [] => []
  | v :: r =>
      let u := v mod 65536 in byte_of_Z u :: byte_of_Z (u / 256) :: tobytes r
  end.

(** The frame the capture loop builds from the recorded mono samples. *)
Definition pcm16_of (mono : list Q) : bytes := tobytes (map to_int16 mono).

(** [np.frombuffer(chunk, dtype=np.int16)]: little-endian pairs; a buffer of
    odd length raises [ValueError]. *)
Definition int16_of (lo hi : Byte.byte) : Z :=
  let u := Z.of_N (Byte.to_N lo) + 256 * Z.of_N (Byte.to_N hi) in
  if u <? 32768 then u else u - 65536.

Fixpoint frombuffer_int16 (bs : bytes) : option (list Z) :=
  match bs with
  | [] => Some []
  | [_] => None
  | lo :: hi :: r =>
      match frombuffer_int16 r with
      | Some vs => Some (int16_of lo hi :: vs)
      | None => None
      end
  end.

(** [.astype(np.float32) / 32768.0] for one sample. *)
Definition to_float (s : Z) : Q := inject_Z s / inject_Z 32768.

(* ------------------------------------------------------------------ *)
(** ** Python strings: [str.strip()]

    Strings are modelled as [String.string]; the whitespace set is the ASCII
    part of Python's [str.isspace]: \t \n \v \f \r, the separators 0x1c-0x1f
    and the space. *)

Definition py_isspace (a : ascii) : bool :=
  let n := nat_of_ascii a in
  ((9 <=? n) && (n <=? 13))%nat || ((28 <=? n) && (n <=? 32))%nat.

Fixpoint lstrip (s : string) : string :=
  match s with
  | EmptyString => EmptyString
  | String a r => if py_isspace a then lstrip r else s
  end.

Fixpoint rstrip (s : string) : string :=
  match s with
  | EmptyString => EmptyString
  | String a r =>
      let r' := rstrip r in
      if String.eqb r' EmptyString && py_isspace a then EmptyString else String a r'
  end.

Definition strip (s : string) : string := rstrip (lstrip s).

(** [''.join(parts)] *)
Definition str_join (parts : list string) : string := String.concat EmptyString parts.

(* ------------------------------------------------------------------ *)
(** ** External capabilities and Python exceptions *)

(** An exception, represented by [str(exc)]. *)
Definition exc := string.

Inductive py_result (A : Type) : Type :=
| Ok (a : A)
| Raised (e : exc).
Arguments Ok {A} a.
Arguments Raised {A} e.

(** What [self.model.transcribe(data)] does: it raises, or its segments
    carry these [.text] fragments. *)
Inductive asr_response : Type :=
| AsrRaised (e : exc)
| AsrReturned (texts : list string).

Definition asr_model := list Q -> asr_response.

(** What [client.chat.completions.create(...)] does: it raises, or it returns
    a response whose [choices] carry these [message.content] values
    ([None] is a possible content). *)
Inductive api_response : Type :=
| ApiRaised (e : exc)
| ApiReturned (contents : list (option string)).

(** The chat messages of [translate_text]: (role, content) pairs. *)
Definition SYSTEM_PROMPT_format (style : string) : string :=
  ("You are a real-time subtitle translator. Translate English ASR fragments into "
   ++ "NATURAL Korean. Preserve numbers and proper nouns; keep lines concise (<=42 chars, "
   ++ "<=2 lines); style=" ++ style ++ ".")%string.

Definition messages (text style : string) : list (string * string) :=
  [("system"%string, SYSTEM_PROMPT_format style); ("user"%string, text)].

Definition chat_client := list (string * string) -> api_response.

(** [translate_text] (lines 28-35). *)
Definition translate_text (client : chat_client) (text style : string) : py_result string :=
  match client (messages text style) with
  | ApiRaised e => Raised e
  | ApiReturned [] => Raised "list index out of range"%string
  | ApiReturned (None :: _) => Raised "'NoneType' object has no attribute 'strip'"%string
  | ApiReturned (Some content :: _) => Ok (strip content)
  end.

(* ------------------------------------------------------------------ *)
(** ** One iteration of [_transcribe_loop] after [audio_queue.get()]
    returned [chunk] (lines 74-82): the strings put on [text_queue], or the
    exception that leaves the loop (and ends the thread). *)

Inductive iter_outcome : Type :=
| Continue (puts : list string)
| Escapes (e : exc).

Definition translation_error (e : exc) : string :=
  ("[Translation error: " ++ e ++ "]")%string.

(** Line 74: the chunk as float32 samples, or the [ValueError] of
    [np.frombuffer]. *)
Definition pcm_to_float (chunk : bytes) : py_result (list Q) :=
  match frombuffer_int16 chunk with
  | None => Raised "buffer size must be a multiple of element size"%string
  | Some samples => Ok (map to_float samples)
  end.

(** Lines 76-82, once [self.model.transcribe(data)] has answered. *)
Definition after_asr (client : chat_client) (style : string) (r : asr_response)
  : iter_outcome :=
  match r with
  | AsrRaised e => Escapes e
  | AsrReturned frags =>
      let text := strip (str_join frags) in
      if negb (String.eqb text EmptyString) then
        match translate_text client text style with
        | Ok translation => Continue [translation]
        | Raised e => Continue [translation_error e]
        end
      else Continue []
  end.

Definition transcribe_iter (model : asr_model) (client : chat_client) (style : string)
  (chunk : bytes) : iter_outcome :=
  match pcm_to_float chunk with
  | Raised e => Escapes e
  | Ok data => after_asr client style (model data)
  end.

(** The string a translation attempt puts on [text_queue]. *)
Definition display_text (r : py_result string) : string :=
  match r with
  | Ok translation => translation
  | Raised e => translation_error e
  end.

(* ------------------------------------------------------------------ *)
(** ** The running overlay: three threads sharing [self.running] and two
    [queue.Queue]s (lines 44-46, 51-116)

    Each thread is a program counter.  [audio_queue] and [text_queue] are
    FIFO lists (put at the tail, get at the head).  The last three fields
    are ghost history, never read by a transition's guard: every chunk ever
    put on [audio_queue], the number of chunks taken from it, and every
    string put on [text_queue] tagged with the index and the contents of
    the chunk whose iteration put it. *)

Inductive capture_pc : Type :=
| CapHead            (* at [while self.running] *)
| CapRecord          (* blocked in [rec.record(numframes=FRAME_SIZE)] *)
| CapExit            (* the loop has exited *)
| CapDied (e : exc). (* an exception left the loop; the thread is over *)

Inductive transcribe_pc : Type :=
| TrHead             (* at [while self.running] *)
| TrGet              (* blocked in [self.audio_queue.get()] *)
| TrExit             (* the loop has exited *)
| TrDied (e : exc).  (* an exception left the loop; the thread is over *)

(** The GUI thread (the main thread, [_gui_loop] called from [run]). *)
Inductive gui_loop_pc : Type :=
| GuiStart     (* [_gui_loop] not yet past its setup: no window *)
| GuiLoop      (* in [root.mainloop()]: the window exists *)
| GuiClosing   (* [on_close] has run [self.running = False] (line 106) *)
| GuiDone.     (* [root.destroy()] has run; [mainloop] has returned *)

Record overlay := mk_overlay {
  voiced_frames : list bytes;
  audio_queue : list bytes;
  text_queue : list string;
  running : bool;
  label_text : string;
  gui_pc : gui_loop_pc;
  cap_pc : capture_pc;
  tr_pc : transcribe_pc;
  seg_log : list bytes;
  consumed : nat;
  text_log : list (nat * bytes * string)
}.

(** [SubtitleOverlay().run()] right after the two worker threads are
    started (lines 114-115), before [_gui_loop] creates the window.
    [label_text] is the text the label is created with (line 93). *)
Definition init : overlay :=
  mk_overlay [] [] [] true "Listening..."%string GuiStart CapHead TrHead [] 0 [].

Definition opt_list {A} (o : option A) : list A :=
  match o with Some a => [a] | None => [] end.

(** Scheduler choices; the recorder, the VAD, the model and the client
    answer through the arguments of the events. *)
Inductive event : Type :=
| CapCheck
| CapFrame (mono : list Q) (speech : bool)
  (* [rec.record] returns the frame, [vad.is_speech] the verdict *)
| CapRaise (e : exc)
  (* [rec.record] or [vad.is_speech] raises *)
| TrCheck
| TrItem (model : asr_model) (client : chat_client)
| GuiOpen      (* lines 86-109: [tk.Tk()], the label, [root.protocol] *)
| GuiTick      (* one call of [update_label] (the first at line 110) *)
| GuiClose     (* [on_close], line 106 *)
| GuiDestroy.  (* [on_close], line 107, ending [root.mainloop()] *)

(** One atomic step of one thread; [None] when that thread cannot take the
    event (wrong place, or blocked on an empty queue). *)
Definition step (style : string) (o : overlay) (ev : event) : option overlay :=
  match ev with
  | CapCheck =>
      match cap_pc o with
      | CapHead =>
          Some (mk_overlay (voiced_frames o) (audio_queue o) (text_queue o) (running o)
                  (label_text o) (gui_pc o)
                  (if running o then CapRecord else CapExit) (tr_pc o)
                  (seg_log o) (consumed o) (text_log o))
      | _ => None
      end
  | CapFrame mono speech =>
      match cap_pc o with
      | CapRecord =>
          let '(vf, out) := seg_step (voiced_frames o) (pcm16_of mono) speech in
          Some (mk_overlay vf (audio_queue o ++ opt_list out) (text_queue o) (running o)
                  (label_text o) (gui_pc o) CapHead (tr_pc o)
                  (seg_log o ++ opt_list out) (consumed o) (text_log o))
      | _ => None
      end
  | CapRaise e =>
      match cap_pc o with
      | CapRecord =>
          Some (mk_overlay (voiced_frames o) (audio_queue o) (text_queue o) (running o)
                  (label_text o) (gui_pc o) (CapDied e) (tr_pc o)
                  (seg_log o) (consumed o) (text_log o))
      | _ => None
      end
  | TrCheck =>
      match tr_pc o with
      | TrHead =>
          Some (mk_overlay (voiced_frames o) (audio_queue o) (text_queue o) (running o)
                  (label_text o) (gui_pc o) (cap_pc o)
                  (if running o then TrGet else TrExit)
                  (seg_log o) (consumed o) (text_log o))
      | _ => None
      end
  | TrItem model client =>
      match tr_pc o, audio_queue o with
      | TrGet, chunk :: rest =>
          match transcribe_iter model client style chunk with
          | Continue puts =>
              Some (mk_overlay (voiced_frames o) rest (text_queue o ++ puts) (running o)
                      (label_text o) (gui_pc o) (cap_pc o) TrHead
                      (seg_log o) (S (consumed o))
                      (text_log o ++ map (fun t => (consumed o, chunk, t)) puts))
          | Escapes e =>
              Some (mk_overlay (voiced_frames o) rest (text_queue o) (running o)
                      (label_text o) (gui_pc o) (cap_pc o) (TrDied e)
                      (seg_log o) (S (consumed o)) (text_log o))
          end
      | _, _ => None
      end
  | GuiOpen =>
      match gui_pc o with
      | GuiStart =>
          Some (mk_overlay (voiced_frames o) (audio_queue o) (text_queue o) (running o)
                  "Listening..."%string GuiLoop (cap_pc o) (tr_pc o)
                  (seg_log o) (consumed o) (text_log o))
      | _ => None
      end
  | GuiTick =>
      match gui_pc o with
      | GuiLoop =>
          match text_queue o with
          | t :: rest =>
              Some (mk_overlay (voiced_frames o) (audio_queue o) rest (running o)
                      t GuiLoop (cap_pc o) (tr_pc o) (seg_log o) (consumed o) (text_log o))
          | [] => Some o
          end
      | _ => None
      end
  | GuiClose =>
      match gui_pc o with
      | GuiLoop =>
          Some (mk_overlay (voiced_frames o) (audio_queue o) (text_queue o) false
                  (label_text o) GuiClosing (cap_pc o) (tr_pc o)
                  (seg_log o) (consumed o) (text_log o))
      | _ => None
      end
  | GuiDestroy =>
      match gui_pc o with
      | GuiClosing =>
          Some (mk_overlay (voiced_frames o) (audio_queue o) (text_queue o) (running o)
                  (label_text o) GuiDone (cap_pc o) (tr_pc o)
                  (seg_log o) (consumed o) (text_log o))
      | _ => None
      end
  end.

Fixpoint run_events (style : string) (o : overlay) (evs : list event) : option overlay :=
  match evs with
  | [] => Some o
  | ev :: rest =>
      match step style o ev with
      | Some o' => run_events style o' rest
      | None => None
      end
  end.

Definition reachable (style : string) (o : overlay) : Prop :=
  exists evs, run_events style init evs = Some o.

(** A frame of one zero sample, for concrete runs. *)
Definition silent_frame : bytes := [Byte.x00; Byte.x00].

(* ------------------------------------------------------------------ *)
(** ** Auxiliary definitions: ghost views of the state, concrete runs *)

(** A state where the transcription thread waits on a queue holding one
    chunk of one zero sample. *)
Definition waiting_on_one : overlay :=
  mk_overlay [] [silent_frame] [] true "Listening..."%string GuiStart CapHead TrGet
    [silent_frame] 0 [].

(** A byte string of whole int16 samples. *)
Definition even_len (bs : bytes) : Prop := exists k, length bs = (2 * k)%nat.

(** Index of the chunk, and the string, of a [text_log] entry. *)
Definition entry_idx (e : nat * bytes * string) : nat := fst (fst e).

Definition entry_text (e : nat * bytes * string) : string := snd e.

(** The invariant of reachable states: frames and chunks hold whole
    samples; [audio_queue] is the part of the history not yet taken; every
    logged string comes from an already taken chunk, at its position in the
    history; logged strings are ordered by chunk; [text_queue] is a suffix
    of the logged strings. *)
Definition inv (o : overlay) : Prop :=
  Forall even_len (voiced_frames o) /\
  Forall even_len (audio_queue o) /\
  (consumed o <= length (seg_log o))%nat /\
  skipn (consumed o) (seg_log o) = audio_queue o /\
  (forall i c t, In (i, c, t) (text_log o) ->
     (i < consumed o)%nat /\ nth_error (seg_log o) i = Some c) /\
  StronglySorted (fun a b => entry_idx a < entry_idx b)%nat (text_log o) /\
  (exists popped, map entry_text (text_log o) = popped ++ text_queue o).

(** Two chunks of one zero sample each, then both transcribed to "a" and
    "b" in that order. *)
Definition fifo_trace : list event :=
  [CapCheck; CapFrame [0%Q] true; CapCheck; CapFrame [0%Q] false;
   CapCheck; CapFrame [0%Q] true; CapCheck; CapFrame [0%Q] false;
   TrCheck; TrItem (fun _ => AsrReturned ["a"%string]) (fun _ => ApiReturned [Some "a"%string]);
   TrCheck; TrItem (fun _ => AsrReturned ["b"%string]) (fun _ => ApiReturned [Some "b"%string])].

(** One chunk of one zero sample, then a model call that raises. *)
Definition asr_failure_trace : list event :=
  [CapCheck; CapFrame [0%Q] true; CapCheck; CapFrame [0%Q] false;
   TrCheck; TrItem (fun _ => AsrRaised "CUDA out of memory"%string)
                   (fun _ => ApiReturned [Some "unused"%string])].

(** The transcription thread reaches [audio_queue.get()] on an empty queue,
    the window opens, [on_close] clears the flag, and the capture thread
    then sees the flag. *)
Definition shutdown_trace : list event := [TrCheck; GuiOpen; GuiClose; CapCheck].

(** The state reached by [shutdown_trace]. *)
Definition stopped_waiting : overlay :=
  mk_overlay [] [] [] false "Listening..."%string GuiClosing CapExit TrGet [] 0 [].

(* ================================================================== *)
(** * Lemmas on the segmenter *)

Lemma MAX_CHUNK_FRAMES_eq : MAX_CHUNK_FRAMES = 333%nat.
Proof. reflexivity. Qed.

Lemma seg_run_cons (vf : list bytes) (p : bytes * bool) (rest : list (bytes * bool)) :
  seg_run vf (p :: rest) =
  let '(vf', out) := seg_step vf (fst p) (snd p) in
  let '(vf'', outs) := seg_run vf' rest in
  (vf'', match out with Some c => c :: outs | None => outs end).
Proof. destruct p; reflexivity. Qed.

(** The buffer never holds [MAX_CHUNK_FRAMES] frames between two frames. *)
Lemma seg_step_bound (vf : list bytes) (f : bytes) (b : bool) :
  (length vf < MAX_CHUNK_FRAMES)%nat ->
  (length (fst (seg_step vf f b)) < MAX_CHUNK_FRAMES)%nat.
Proof.
  intros H. unfold seg_step. destruct b.
  - destruct (Nat.leb_spec MAX_CHUNK_FRAMES (length (vf ++ [f]))); simpl.
    + rewrite MAX_CHUNK_FRAMES_eq; lia.
    + lia.
  - destruct vf; simpl in *; [exact H | rewrite MAX_CHUNK_FRAMES_eq; lia].
Qed.

(** Every chunk a single step emits is the join of 1 to [MAX_CHUNK_FRAMES]
    frames. *)
Lemma seg_step_emit_bound (vf : list bytes) (f : bytes) (b : bool) (c : bytes) :
  (length vf < MAX_CHUNK_FRAMES)%nat ->
  snd (seg_step vf f b) = Some c ->
  exists fs, c = join fs /\ (1 <= length fs <= MAX_CHUNK_FRAMES)%nat.
Proof.
  intros Hlt. unfold seg_step. destruct b.
  - destruct (Nat.leb_spec MAX_CHUNK_FRAMES (length (vf ++ [f]))); simpl;
      [|discriminate].
    intros Hc; injection Hc as <-. exists (vf ++ [f]).
    rewrite length_app in *; simpl in *. split; [reflexivity | lia].
  - destruct vf as [|g vf']; simpl; [discriminate|].
    intros Hc; injection Hc as <-. exists (g :: vf'). simpl in *.
    split; [reflexivity | lia].
Qed.

Lemma seg_run_bound (input : list (bytes * bool)) :
  forall vf, (length vf < MAX_CHUNK_FRAMES)%nat ->
  (length (fst (seg_run vf input)) < MAX_CHUNK_FRAMES)%nat /\
  (forall c, In c (snd (seg_run vf input)) ->
     exists fs, c = join fs /\ (1 <= length fs <= MAX_CHUNK_FRAMES)%nat).
Proof.
  induction input as [|[f b] rest IH]; intros vf Hlt.
  - simpl. split; [exact Hlt | intros c []].
  - simpl. destruct (seg_step vf f b) as [vf' out] eqn:Hs.
    assert (Hb : (length vf' < MAX_CHUNK_FRAMES)%nat).
    { change vf' with (fst (vf', out)). rewrite <- Hs. now apply seg_step_bound. }
    destruct (IH vf' Hb) as [IH1 IH2].
    destruct (seg_run vf' rest) as [vf'' outs] eqn:Hr. simpl in *.
    split; [exact IH1|].
    intros c Hc. destruct out as [c0|].
    + destruct Hc as [<-|Hc]; [|now apply IH2].
      apply (seg_step_emit_bound vf f b); [exact Hlt | now rewrite Hs].
    + now apply IH2.
Qed.

Lemma seg_step_voiced (vf : list bytes) (f : bytes) :
  seg_step vf f true =
  if (MAX_CHUNK_FRAMES <=? length vf + 1)%nat then ([], Some (join (vf ++ [f])))
  else (vf ++ [f], None).
Proof. unfold seg_step. rewrite length_app. reflexivity. Qed.

(** A voiced run of frames that fills the buffer up to the cap is emitted as
    one chunk, and what follows is segmented from an empty buffer. *)
Lemma seg_run_fill (fs : list bytes) :
  forall vf rest, fs <> [] ->
  (length vf + length fs = MAX_CHUNK_FRAMES)%nat ->
  seg_run vf (map voiced fs ++ rest) =
  let '(st, out) := seg_run [] rest in (st, join (vf ++ fs) :: out).
Proof.
  induction fs as [|f fs' IH]; intros vf rest Hne Hlen; [congruence|].
  cbn [map app]. rewrite seg_run_cons. cbn [fst snd voiced].
  rewrite seg_step_voiced. cbn [length] in Hlen.
  destruct fs' as [|g fs''].
  - destruct (Nat.leb_spec MAX_CHUNK_FRAMES (length vf + 1)); [|cbn [length] in Hlen; lia].
    cbn [map app]. destruct (seg_run [] rest); reflexivity.
  - cbn [length] in Hlen.
    destruct (Nat.leb_spec MAX_CHUNK_FRAMES (length vf + 1)); [lia|].
    rewrite (IH (vf ++ [f]) rest) by (try discriminate; rewrite length_app; cbn [length]; lia).
    destruct (seg_run [] rest). rewrite <- app_assoc. reflexivity.
Qed.

Lemma seg_run_silence (input : list (bytes * bool)) :
  Forall (fun p => snd p = false) input -> seg_run [] input = ([], []).
Proof.
  induction input as [|[f b] rest IH]; intros H; [reflexivity|].
  inversion H as [|? ? Hb Hrest]; subst. simpl in Hb; subst b.
  simpl. rewrite (IH Hrest). reflexivity.
Qed.

(** Every chunk emitted from a buffer [vf] is the join of 1 to
    [MAX_CHUNK_FRAMES] frames [fs] read off the input: [fs] is a run of
    consecutive voiced frames of the input, extended at the front by [vf]
    when the run starts the input. *)
Lemma seg_run_chunks (input : list (bytes * bool)) :
  forall vf, (length vf < MAX_CHUNK_FRAMES)%nat ->
  forall c, In c (snd (seg_run vf input)) ->
  exists fs, c = join fs /\ (1 <= length fs <= MAX_CHUNK_FRAMES)%nat /\
    exists pre vs post, input = pre ++ map voiced vs ++ post /\
      ((pre = [] /\ fs = vf ++ vs) \/ fs = vs).
Proof.
  induction input as [|[f b] rest IH]; intros vf Hlt c Hc; [destruct Hc|].
  rewrite seg_run_cons in Hc. cbn [fst snd] in Hc.
  destruct (seg_step vf f b) as [vf' out] eqn:Hs.
  assert (Hb : (length vf' < MAX_CHUNK_FRAMES)%nat).
  { change vf' with (fst (vf', out)). rewrite <- Hs. now apply seg_step_bound. }
  assert (IH' := IH vf' Hb).
  destruct (seg_run vf' rest) as [vf'' outs] eqn:Hr. cbn [snd] in Hc, IH'.
  (* a chunk emitted later, from a buffer emptied by this frame *)
  assert (Hlater : vf' = [] -> forall c0, In c0 outs ->
    exists fs, c0 = join fs /\ (1 <= length fs <= MAX_CHUNK_FRAMES)%nat /\
      exists pre vs post, (f, b) :: rest = pre ++ map voiced vs ++ post /\
        ((pre = [] /\ fs = vf ++ vs) \/ fs = vs)).
  { intros Hnil c0 Hc0. subst vf'.
    destruct (IH' c0 Hc0) as (fs & Hcj & Hbd & pre & vs & post & Hrest & Hfs).
    exists fs. split; [exact Hcj|]. split; [exact Hbd|].
    exists ((f, b) :: pre), vs, post. split; [rewrite Hrest; reflexivity|].
    right. destruct Hfs as [[_ ->]| ->]; reflexivity. }
  unfold seg_step in Hs. destruct b.
  - destruct (MAX_CHUNK_FRAMES <=? length (vf ++ [f]))%nat eqn:Hle;
      injection Hs as <- <-.
    + destruct Hc as [<-|Hc]; [|exact (Hlater eq_refl c Hc)].
      exists (vf ++ [f]). apply Nat.leb_le in Hle. rewrite length_app in *; cbn [length] in *.
      split; [reflexivity|]. split; [lia|].
      exists [], [f], rest. split; [reflexivity|]. left. split; reflexivity.
    + destruct (IH' c Hc) as (fs & Hcj & Hbd & pre & vs & post & Hrest & Hfs).
      exists fs. split; [exact Hcj|]. split; [exact Hbd|].
      destruct Hfs as [[-> ->]| ->].
      * exists [], (f :: vs), post. split; [rewrite Hrest; reflexivity|].
        left. split; [reflexivity|]. rewrite <- app_assoc. reflexivity.
      * exists ((f, true) :: pre), vs, post.
        split; [rewrite Hrest; reflexivity | right; reflexivity].
  - destruct vf as [|g vf0]; injection Hs as <- <-; [exact (Hlater eq_refl c Hc)|].
    destruct Hc as [<-|Hc]; [|exact (Hlater eq_refl c Hc)].
    exists (g :: vf0). cbn [length] in *. split; [reflexivity|]. split; [lia|].
    exists [], [], ((f, false) :: rest). split; [reflexivity|].
    left. split; [reflexivity | rewrite app_nil_r; reflexivity].
Qed.

(* ================================================================== *)
(** * Claims on the segmenter *)

(** C1: on a voiced frame the capture loop appends the frame to
    [voiced_frames]; when the buffer reaches [MAX_CHUNK_FRAMES] frames it is
    put on [audio_queue] as one chunk (the join of exactly those frames) and
    reset.  So a voiced run of at least [MAX_CHUNK_FRAMES] frames yields a
    full-cap chunk of its first [MAX_CHUNK_FRAMES] frames, and the rest of
    the input is segmented afresh from an empty buffer. *)
Theorem capture_voiced_cap (ps : list (bytes * bool)) (f : bytes)
  (fs : list bytes) (rest : list (bytes * bool)) :
  length fs = MAX_CHUNK_FRAMES ->
  (let vf := fst (seg_run [] ps) in
   (length vf < MAX_CHUNK_FRAMES)%nat /\
   seg_step vf f true =
   if (length vf + 1 =? MAX_CHUNK_FRAMES)%nat then ([], Some (join (vf ++ [f])))
   else (vf ++ [f], None)) /\
  seg_run [] (map voiced fs ++ rest) =
  let '(st, out) := seg_run [] rest in (st, join fs :: out).
Proof.
  intros Hlen. split.
  - cbv zeta.
    assert (Hb : (length (fst (seg_run [] ps)) < MAX_CHUNK_FRAMES)%nat).
    { apply (seg_run_bound ps []). rewrite MAX_CHUNK_FRAMES_eq; simpl; lia. }
    split; [exact Hb|]. rewrite seg_step_voiced.
    destruct (Nat.leb_spec MAX_CHUNK_FRAMES (length (fst (seg_run [] ps)) + 1));
      destruct (Nat.eqb_spec (length (fst (seg_run [] ps)) + 1) MAX_CHUNK_FRAMES);
      reflexivity || lia.
  - apply (seg_run_fill fs [] rest).
    + intros ->. rewrite MAX_CHUNK_FRAMES_eq in Hlen. discriminate.
    + simpl. exact Hlen.
Qed.

Lemma capture_voiced_cap_witness :
  length (repeat silent_frame 333) = MAX_CHUNK_FRAMES /\
  seg_run [] (map voiced (repeat silent_frame 333) ++ [voiced silent_frame]) =
  ([silent_frame], [join (repeat silent_frame 333)]).
Proof.
  split; [reflexivity|].
  destruct (capture_voiced_cap [] silent_frame (repeat silent_frame 333)
              [voiced silent_frame] eq_refl) as [_ H].
  rewrite H. reflexivity.
Defined.

(** C2: a non-voiced frame arriving while [voiced_frames] is non-empty puts
    exactly one chunk, the join of the buffer, on [audio_queue] and empties
    the buffer; arriving while the buffer is empty it puts nothing and leaves
    the buffer as it is. *)
Theorem capture_silence_flush (vf : list bytes) (f : bytes) :
  (vf <> [] -> seg_run vf [(f, false)] = ([], [join vf])) /\
  (vf = [] -> seg_run vf [(f, false)] = (vf, [])).
Proof.
  split; intros H.
  - destruct vf as [|g vf']; [congruence|]. reflexivity.
  - subst vf. reflexivity.
Qed.

Lemma capture_silence_flush_witness :
  seg_run [silent_frame] [(silent_frame, false)] = ([], [join [silent_frame]]) /\
  seg_run [] [(silent_frame, false)] = ([], []).
Proof.
  split.
  - apply (proj1 (capture_silence_flush [silent_frame] silent_frame)). discriminate.
  - apply (proj2 (capture_silence_flush [] silent_frame)). reflexivity.
Defined.

(** C3: whatever the frames and the VAD verdicts, every chunk the capture
    loop puts on [audio_queue] is the join of at least 1 and at most
    [MAX_CHUNK_FRAMES] frames of the input, namely of a run of consecutive
    frames classified voiced; and an input whose frames are all non-voiced
    puts no chunk at all. *)
Theorem capture_segment_bounds (input : list (bytes * bool)) :
  (forall c, In c (snd (seg_run [] input)) ->
     exists fs, c = join fs /\ (1 <= length fs <= MAX_CHUNK_FRAMES)%nat /\
       exists pre post, input = pre ++ map voiced fs ++ post) /\
  (Forall (fun p => snd p = false) input -> snd (seg_run [] input) = []).
Proof.
  split.
  - intros c Hc.
    destruct (seg_run_chunks input [] ltac:(rewrite MAX_CHUNK_FRAMES_eq; cbn; lia) c Hc)
      as (fs & Hcj & Hbd & pre & vs & post & Hin & Hfs).
    exists fs. split; [exact Hcj|]. split; [exact Hbd|].
    exists pre, post. destruct Hfs as [[_ ->]| ->]; exact Hin.
  - intros H. rewrite (seg_run_silence input H). reflexivity.
Qed.

Lemma capture_segment_bounds_witness :
  (exists fs, join [silent_frame] = join fs /\ (1 <= length fs <= MAX_CHUNK_FRAMES)%nat /\
     exists pre post, [(silent_frame, false); voiced silent_frame; (silent_frame, false)] =
                      pre ++ map voiced fs ++ post) /\
  snd (seg_run [] [(silent_frame, false); (silent_frame, false)]) = [].
Proof.
  split.
  - apply (proj1 (capture_segment_bounds
                    [(silent_frame, false); voiced silent_frame; (silent_frame, false)])).
    simpl. left. reflexivity.
  - apply (proj2 (capture_segment_bounds [(silent_frame, false); (silent_frame, false)])).
    repeat constructor.
Defined.

(* ================================================================== *)
(** * Lemmas on strings and on one transcription iteration *)

Lemma lstrip_all_space (s : string) :
  forallb py_isspace (list_ascii_of_string s) = true -> lstrip s = EmptyString.
Proof.
  induction s as [|a r IH]; simpl; [reflexivity|].
  intros H. apply andb_prop in H as [Ha Hr]. rewrite Ha. exact (IH Hr).
Qed.

Lemma strip_all_space (s : string) :
  forallb py_isspace (list_ascii_of_string s) = true -> strip s = EmptyString.
Proof. intros H. unfold strip. rewrite (lstrip_all_space s H). reflexivity. Qed.

Lemma transcribe_iter_asr (model : asr_model) (client : chat_client) (style : string)
  (chunk : bytes) (samples : list Z) :
  frombuffer_int16 chunk = Some samples ->
  transcribe_iter model client style chunk =
  after_asr client style (model (map to_float samples)).
Proof. intros H. unfold transcribe_iter, pcm_to_float. rewrite H. reflexivity. Qed.

(* ================================================================== *)
(** * Claims on the transcription loop *)

(** C5: once the model has returned its fragments for a chunk, the loop
    joins them, strips surrounding whitespace, and hands the result to the
    translation only when it is non-empty (that text is exactly what
    [translate_text] receives); an empty or whitespace-only result puts
    nothing on [text_queue]. *)
Theorem transcribe_forwards_nonempty (model : asr_model) (client : chat_client)
  (style : string) (chunk : bytes) (samples : list Z) (frags : list string) :
  frombuffer_int16 chunk = Some samples ->
  model (map to_float samples) = AsrReturned frags ->
  let text := strip (str_join frags) in
  (text = EmptyString -> transcribe_iter model client style chunk = Continue []) /\
  (forallb py_isspace (list_ascii_of_string (str_join frags)) = true ->
     transcribe_iter model client style chunk = Continue []) /\
  (text <> EmptyString ->
     transcribe_iter model client style chunk =
     Continue [display_text (translate_text client text style)]).
Proof.
  intros Hbuf Hasr text. rewrite (transcribe_iter_asr model client style chunk samples Hbuf).
  rewrite Hasr. simpl. fold text.
  assert (Hempty : text = EmptyString ->
            (if negb (String.eqb text EmptyString) then
               match translate_text client text style with
               | Ok translation => Continue [translation]
               | Raised e => Continue [translation_error e]
               end
             else Continue []) = Continue []).
  { intros ->. reflexivity. }
  split; [exact Hempty|]. split.
  - intros Hsp. apply Hempty. apply strip_all_space. exact Hsp.
  - intros Hne. destruct (String.eqb_spec text EmptyString) as [|_]; [contradiction|].
    simpl. destruct (translate_text client text style); reflexivity.
Qed.

Lemma transcribe_forwards_nonempty_witness :
  transcribe_iter (fun _ => AsrReturned [" "; "  "]%string)
    (fun _ => ApiReturned [Some "x"%string]) "honorific"%string silent_frame = Continue [] /\
  transcribe_iter (fun _ => AsrReturned [" hello"; " world "]%string)
    (fun _ => ApiReturned [Some " hi "%string]) "honorific"%string silent_frame =
  Continue ["hi"%string].
Proof.
  split.
  - apply (proj1 (proj2 (transcribe_forwards_nonempty
             (fun _ => AsrReturned [" "; "  "]%string) (fun _ => ApiReturned [Some "x"%string])
             "honorific"%string silent_frame [0] [" "; "  "]%string eq_refl eq_refl))).
    reflexivity.
  - rewrite (proj2 (proj2 (transcribe_forwards_nonempty
             (fun _ => AsrReturned [" hello"; " world "]%string)
             (fun _ => ApiReturned [Some " hi "%string])
             "honorific"%string silent_frame [0] [" hello"; " world "]%string eq_refl eq_refl))).
    + reflexivity.
    + vm_compute. discriminate.
Defined.

Lemma after_asr_nonempty (client : chat_client) (style : string) (frags : list string) :
  strip (str_join frags) <> EmptyString ->
  after_asr client style (AsrReturned frags) =
  Continue [display_text (translate_text client (strip (str_join frags)) style)].
Proof.
  intros Hne. simpl. destruct (String.eqb_spec (strip (str_join frags)) EmptyString);
    [contradiction|]. simpl. destruct (translate_text _ _ _); reflexivity.
Qed.

(** C4: for a chunk whose transcript is non-empty, the iteration puts
    exactly one string on [text_queue] and goes back to the loop test: the
    stripped content of the first choice when [translate_text] succeeds, and
    ["[Translation error: <reason>]"] when it raises, whatever the reason
    (an exception of the client, no choice, a [None] content). *)
Theorem translation_contained (style : string) (o : overlay) (model : asr_model)
  (client : chat_client) (chunk : bytes) (rest : list bytes) (samples : list Z)
  (frags : list string) :
  tr_pc o = TrGet -> audio_queue o = chunk :: rest ->
  frombuffer_int16 chunk = Some samples ->
  model (map to_float samples) = AsrReturned frags ->
  strip (str_join frags) <> EmptyString ->
  let text := strip (str_join frags) in
  exists o',
    step style o (TrItem model client) = Some o' /\
    tr_pc o' = TrHead /\ audio_queue o' = rest /\
    text_queue o' = text_queue o ++ [display_text (translate_text client text style)] /\
    (forall t, translate_text client text style = Ok t ->
       exists c cs, client (messages text style) = ApiReturned (Some c :: cs) /\ t = strip c) /\
    (forall e, translate_text client text style = Raised e ->
       display_text (translate_text client text style) =
       ("[Translation error: " ++ e ++ "]")%string) /\
    (forall e, client (messages text style) = ApiRaised e ->
       display_text (translate_text client text style) =
       ("[Translation error: " ++ e ++ "]")%string).
Proof.
  intros Hpc Hq Hbuf Hasr Hne text.
  assert (Hit : transcribe_iter model client style chunk =
                Continue [display_text (translate_text client text style)]).
  { rewrite (transcribe_iter_asr model client style chunk samples Hbuf), Hasr.
    exact (after_asr_nonempty client style frags Hne). }
  unfold step. rewrite Hpc, Hq, Hit.
  eexists. split; [reflexivity|]. cbn [tr_pc audio_queue text_queue].
  split; [reflexivity|]. split; [reflexivity|]. split; [reflexivity|]. split; [|split].
  - unfold translate_text. intros t.
    destruct (client (messages text style)) as [e|[|[c|] cs]]; try discriminate.
    intros Ht; injection Ht as <-. exists c, cs. split; reflexivity.
  - intros e He. rewrite He. reflexivity.
  - intros e He. unfold translate_text. rewrite He. reflexivity.
Qed.

Lemma translation_contained_witness :
  exists o',
    step "honorific"%string waiting_on_one
      (TrItem (fun _ => AsrReturned ["hello world"%string])
              (fun _ => ApiRaised "Request timed out."%string)) = Some o' /\
    text_queue o' = ["[Translation error: Request timed out.]"%string] /\ tr_pc o' = TrHead.
Proof.
  destruct (translation_contained "honorific"%string waiting_on_one
              (fun _ => AsrReturned ["hello world"%string])
              (fun _ => ApiRaised "Request timed out."%string)
              silent_frame [] [0] ["hello world"%string]
              eq_refl eq_refl eq_refl eq_refl ltac:(vm_compute; discriminate))
    as [o' [Hs [Hpc [_ [Htq _]]]]].
  exists o'. split; [exact Hs|]. split; [|exact Hpc].
  rewrite Htq. reflexivity.
Defined.

(* ================================================================== *)
(** * PCM conversions *)

Lemma int16_of_bounds (lo hi : Byte.byte) : -32768 <= int16_of lo hi <= 32767.
Proof.
  unfold int16_of.
  pose proof (Byte.to_N_bounded lo) as Hl. pose proof (Byte.to_N_bounded hi) as Hh.
  apply N2Z.inj_le in Hl. apply N2Z.inj_le in Hh. simpl in Hl, Hh.
  pose proof (N2Z.is_nonneg (Byte.to_N lo)). pose proof (N2Z.is_nonneg (Byte.to_N hi)).
  destruct (Z.ltb_spec (Z.of_N (Byte.to_N lo) + 256 * Z.of_N (Byte.to_N hi)) 32768); lia.
Qed.

Lemma to_float_bounds (s : Z) : -32768 <= s <= 32767 ->
  (-1 <= to_float s)%Q /\ (to_float s < 1)%Q.
Proof. intros Hs. unfold to_float, Qdiv, Qle, Qlt. simpl. lia. Qed.

Lemma frombuffer_even (bs : bytes) (k : nat) :
  length bs = (2 * k)%nat ->
  exists samples, frombuffer_int16 bs = Some samples /\
    Forall (fun s => -32768 <= s <= 32767) samples.
Proof.
  revert bs. induction k as [|k IH]; intros bs Hlen.
  - destruct bs; [|discriminate]. exists []. split; [reflexivity | constructor].
  - destruct bs as [|lo [|hi r]]; try (simpl in Hlen; lia).
    destruct (IH r) as [vs [Hvs Hb]]; [simpl in Hlen; lia|].
    exists (int16_of lo hi :: vs). simpl. rewrite Hvs. split; [reflexivity|].
    constructor; [apply int16_of_bounds | exact Hb].
Qed.

Lemma tobytes_length (vs : list Z) : length (tobytes vs) = (2 * length vs)%nat.
Proof. induction vs as [|v r IH]; simpl; [reflexivity | rewrite IH; lia]. Qed.

Lemma join_even (parts : list bytes) : Forall even_len parts -> even_len (join parts).
Proof.
  induction 1 as [|p ps [k Hk] _ [m Hm]]; [exists 0%nat; reflexivity|].
  exists (k + m)%nat. unfold join in *. simpl. rewrite length_app, Hk, Hm. lia.
Qed.

Lemma pcm16_even (mono : list Q) : even_len (pcm16_of mono).
Proof. exists (length (map to_int16 mono)). apply tobytes_length. Qed.

(** [wrap16 z] differs from [z] by a multiple of 2^16 and is an int16. *)
Lemma wrap16_spec (z : Z) :
  (exists k, wrap16 z = z + 65536 * k) /\ -32768 <= wrap16 z <= 32767.
Proof.
  unfold wrap16. pose proof (Z.div_mod z 65536 ltac:(lia)) as Hd.
  pose proof (Z.mod_pos_bound z 65536 ltac:(lia)) as Hb.
  destruct (Z.ltb_spec (z mod 65536) 32768).
  - split; [exists (- (z / 65536)); lia | lia].
  - split; [exists (- (z / 65536) - 1); lia | lia].
Qed.

Lemma c_int_id (z : Z) : -2147483648 <= z <= 2147483647 -> c_int z = z.
Proof.
  intros H. unfold c_int.
  destruct (Z.leb_spec (-2147483648) z), (Z.leb_spec z 2147483647); cbn; lia.
Qed.

(** Truncation of [x * 32768] for [x = n/d >= 0]: the floor of the
    quotient. *)
Lemma trunc_nonneg (n : Z) (d : positive) : 0 <= n ->
  trunc ((n # d) * inject_Z 32768) * Z.pos d <= n * 32768 <
  trunc ((n # d) * inject_Z 32768) * Z.pos d + Z.pos d.
Proof.
  intros Hn. unfold trunc. cbn [Qmult Qnum Qden inject_Z]. rewrite Pos.mul_1_r.
  rewrite Z.quot_div_nonneg by lia.
  pose proof (Z.div_mod (n * 32768) (Z.pos d) ltac:(lia)).
  pose proof (Z.mod_pos_bound (n * 32768) (Z.pos d) ltac:(lia)). lia.
Qed.

(** C10 (as stated, refuted): a sample of 65537 (a float32 value) times
    32768 is 2^31 + 32768, beyond the int32 range the C cast goes through:
    the cast gives 0 there, not the truncated product reduced modulo 2^16,
    which is -32768. *)
Lemma pcm16_no_wrap_beyond_int32 :
  (1 <= inject_Z 65537)%Q /\ to_int16 (inject_Z 65537) = 0 /\
  wrap16 (trunc (inject_Z 65537 * inject_Z 32768)) = -32768 /\
  (to_int16 (inject_Z 65537) - trunc (inject_Z 65537 * inject_Z 32768)) mod 65536 <> 0.
Proof.
  split; [unfold Qle; cbn; lia|]. split; [reflexivity|]. split; [reflexivity|].
  vm_compute. discriminate.
Qed.

(** C10 (amended): the capture loop's [(mono * 32768).astype(np.int16)]
    does not saturate: for a sample [x] with [1 <= x < 65536] (so that the
    product fits in the C int the cast goes through) the result is the
    truncated product reduced modulo 2^16 into the int16 range; for a
    sample in [1, 2) that is the product minus 2^16, a negative value; in
    particular 1.0 becomes -32768 and not 32767. *)
Theorem pcm16_wraps (x : Q) :
  (1 <= x)%Q -> (x < inject_Z 65536)%Q ->
  (to_int16 x - trunc (x * inject_Z 32768)) mod 65536 = 0 /\
  -32768 <= to_int16 x <= 32767 /\
  ((x < 2)%Q -> to_int16 x = trunc (x * inject_Z 32768) - 65536 /\ to_int16 x < 0) /\
  to_int16 1 = -32768 /\ to_int16 1 <> 32767.
Proof.
  intros Hx Hx65.
  destruct x as [n d]. unfold Qle, Qlt in Hx, Hx65. cbn in Hx, Hx65.
  pose proof (trunc_nonneg n d ltac:(lia)) as Htr.
  set (q := trunc ((n # d) * inject_Z 32768)) in *.
  assert (Hq : 32768 <= q <= 2147483647) by nia.
  assert (Hc : to_int16 (n # d) = wrap16 q)
    by (unfold to_int16; fold q; rewrite c_int_id by lia; reflexivity).
  rewrite Hc. destruct (wrap16_spec q) as [[k Hk] Hb].
  split; [|split; [exact Hb|split; [|split; [reflexivity | discriminate]]]].
  - rewrite Hk. replace (q + 65536 * k - q) with (k * 65536) by ring.
    apply Z.mod_mul. lia.
  - intros Hx2. unfold Qlt in Hx2. cbn in Hx2.
    assert (Hq2 : q < 65536) by nia.
    unfold wrap16. rewrite (Z.mod_small q 65536) by lia.
    destruct (Z.ltb_spec q 32768); lia.
Qed.

Lemma pcm16_wraps_witness :
  (1 <= 3 # 2)%Q /\ (3 # 2 < inject_Z 65536)%Q /\
  to_int16 (3 # 2) = trunc ((3 # 2) * inject_Z 32768) - 65536.
Proof.
  split; [unfold Qle; simpl; lia|]. split; [unfold Qlt; simpl; lia|].
  apply (proj1 (proj1 (proj2 (proj2 (pcm16_wraps (3 # 2) ltac:(unfold Qle; simpl; lia)
           ltac:(unfold Qlt; simpl; lia))))
           ltac:(unfold Qlt; simpl; lia))).
Defined.

(* ================================================================== *)
(** * An invariant of the running overlay *)

Lemma seg_step_even (vf : list bytes) (f : bytes) (b : bool) :
  Forall even_len vf -> even_len f ->
  Forall even_len (fst (seg_step vf f b)) /\
  Forall even_len (opt_list (snd (seg_step vf f b))).
Proof.
  intros Hvf Hf. unfold seg_step. destruct b.
  - assert (Happ : Forall even_len (vf ++ [f])) by (apply Forall_app; auto).
    destruct (MAX_CHUNK_FRAMES <=? length (vf ++ [f]))%nat; cbn [fst snd opt_list].
    + split; [constructor | constructor; [apply join_even; exact Happ | constructor]].
    + split; [exact Happ | constructor].
  - destruct vf; cbn [fst snd opt_list]; [split; [constructor | constructor]|].
    split; [constructor | constructor; [apply join_even; exact Hvf | constructor]].
Qed.

Lemma skipn_cons_next {A} (n : nat) (l : list A) (x : A) (r : list A) :
  skipn n l = x :: r -> skipn (S n) l = r /\ nth_error l n = Some x.
Proof.
  revert l. induction n as [|n IH]; intros l H.
  - destruct l as [|y l']; simpl in *; [discriminate|]. injection H as -> ->. auto.
  - destruct l as [|y l']; simpl in *; [discriminate|]. exact (IH l' H).
Qed.

Lemma after_asr_puts (client : chat_client) (style : string) (r : asr_response)
  (puts : list string) :
  after_asr client style r = Continue puts -> (length puts <= 1)%nat.
Proof.
  unfold after_asr. destruct r; [discriminate|].
  destruct (negb _); [destruct (translate_text _ _ _)|];
    intros H; injection H as <-; simpl; lia.
Qed.

Lemma transcribe_iter_puts (model : asr_model) (client : chat_client) (style : string)
  (chunk : bytes) (puts : list string) :
  transcribe_iter model client style chunk = Continue puts -> (length puts <= 1)%nat.
Proof.
  unfold transcribe_iter. destruct (pcm_to_float chunk); [|discriminate].
  apply after_asr_puts.
Qed.

Lemma StronglySorted_snoc {A} (R : A -> A -> Prop) (l : list A) (x : A) :
  StronglySorted R l -> Forall (fun y => R y x) l -> StronglySorted R (l ++ [x]).
Proof.
  induction 1 as [|a l Hs IH Ha]; intros Hx; simpl.
  - repeat constructor.
  - inversion Hx as [|? ? Hax Hlx]; subst. constructor.
    + exact (IH Hlx).
    + apply Forall_app. split; [exact Ha | constructor; [exact Hax | constructor]].
Qed.

Lemma inv_init : inv init.
Proof.
  unfold inv, init; cbn. split; [constructor|]. split; [constructor|].
  split; [lia|]. split; [reflexivity|]. split; [intros i c t []|].
  split; [constructor|]. exists []. reflexivity.
Qed.

(** The fields [inv] reads are those of the state before the step. *)
Ltac keep_inv :=
  match goal with
  | Hvf : Forall even_len _, Haq : Forall even_len _, Hle : (_ <= _)%nat,
    Hskip : skipn _ _ = _, Hlog : forall _ _ _, _, Hsort : StronglySorted _ _,
    Hpop : map entry_text _ = ?p ++ _ |- _ =>
      exact (conj Hvf (conj Haq (conj Hle (conj Hskip (conj Hlog
               (conj Hsort (ex_intro _ p Hpop)))))))
  end.

Lemma inv_step (style : string) (o o' : overlay) (ev : event) :
  inv o -> step style o ev = Some o' -> inv o'.
Proof.
  intros Hinv Hs.
  destruct Hinv as (Hvf & Haq & Hle & Hskip & Hlog & Hsort & popped & Hpop).
  unfold step in Hs. destruct ev as [| mono speech | e | | model client | | | |].
  - destruct (cap_pc o); try discriminate. injection Hs as <-.
    unfold inv; cbn. keep_inv.
  - destruct (cap_pc o); try discriminate.
    destruct (seg_step (voiced_frames o) (pcm16_of mono) speech) as [vf out] eqn:E.
    injection Hs as <-.
    destruct (seg_step_even (voiced_frames o) (pcm16_of mono) speech Hvf (pcm16_even mono))
      as [Hvf' Hout]. rewrite E in Hvf', Hout. cbn [fst snd] in Hvf', Hout.
    unfold inv; cbn. split; [exact Hvf'|]. split; [apply Forall_app; auto|].
    split; [rewrite length_app; lia|].
    split; [rewrite skipn_app; replace (consumed o - length (seg_log o))%nat with 0%nat by lia;
            rewrite Hskip; reflexivity|].
    split; [|split; [exact Hsort | exists popped; exact Hpop]].
    intros i c t Hin. destruct (Hlog i c t Hin) as [Hi Hn]. split; [exact Hi|].
    rewrite nth_error_app1; [exact Hn|]. apply nth_error_Some. congruence.
  - destruct (cap_pc o); try discriminate. injection Hs as <-.
    unfold inv; cbn. keep_inv.
  - destruct (tr_pc o); try discriminate. injection Hs as <-.
    unfold inv; cbn. keep_inv.
  - destruct (tr_pc o); try discriminate.
    destruct (audio_queue o) as [|chunk rest] eqn:Eq; try discriminate.
    destruct (skipn_cons_next _ _ _ _ Hskip) as [Hskip' Hnth].
    assert (Hlt : (consumed o < length (seg_log o))%nat)
      by (apply nth_error_Some; congruence).
    pose proof (Forall_inv_tail Haq) as Haq'.
    destruct (transcribe_iter model client style chunk) as [puts|e] eqn:Hit;
      injection Hs as <-; unfold inv; cbn.
    + split; [exact Hvf|]. split; [exact Haq'|]. split; [lia|].
      split; [exact Hskip'|]. split; [|split].
      * intros i c t Hin. apply in_app_or in Hin as [Hin|Hin].
        -- destruct (Hlog i c t Hin); split; [lia | assumption].
        -- apply in_map_iff in Hin as [t' [Heq _]]. injection Heq as <- <- _.
           split; [lia | exact Hnth].
      * pose proof (transcribe_iter_puts _ _ _ _ _ Hit) as Hp.
        destruct puts as [|t [|t' ?]]; cbn [map]; [rewrite app_nil_r; exact Hsort | | simpl in Hp; lia].
        apply StronglySorted_snoc; [exact Hsort|].
        apply Forall_forall. intros [[i c] t0] Hin. unfold entry_idx; cbn.
        destruct (Hlog i c t0 Hin); assumption.
      * exists popped. rewrite map_app, Hpop, map_map, <- app_assoc. cbn.
        rewrite map_id. reflexivity.
    + split; [exact Hvf|]. split; [exact Haq'|]. split; [lia|].
      split; [exact Hskip'|]. split; [|split; [exact Hsort | exists popped; exact Hpop]].
      intros i c t Hin. destruct (Hlog i c t Hin); split; [lia | assumption].
  - destruct (gui_pc o); try discriminate. injection Hs as <-.
    unfold inv; cbn. keep_inv.
  - destruct (gui_pc o); try discriminate.
    destruct (text_queue o) as [|t rest] eqn:Etq.
    + injection Hs as <-. unfold inv.
      rewrite <- Etq in Hpop. keep_inv.
    + injection Hs as <-. unfold inv; cbn.
      do 6 (split; [assumption|]). exists (popped ++ [t]). rewrite Hpop, <- app_assoc. reflexivity.
  - destruct (gui_pc o); try discriminate. injection Hs as <-.
    unfold inv; cbn. keep_inv.
  - destruct (gui_pc o); try discriminate. injection Hs as <-.
    unfold inv; cbn. keep_inv.
Qed.

Lemma inv_run (style : string) (evs : list event) :
  forall o o', inv o -> run_events style o evs = Some o' -> inv o'.
Proof.
  induction evs as [|ev rest IH]; intros o o' Hinv Hrun; simpl in Hrun.
  - injection Hrun as <-. exact Hinv.
  - destruct (step style o ev) as [o1|] eqn:Hs; [|discriminate].
    exact (IH o1 o' (inv_step style o o1 ev Hinv Hs) Hrun).
Qed.

Lemma inv_reachable (style : string) (o : overlay) : reachable style o -> inv o.
Proof. intros [evs Hrun]. exact (inv_run style evs init o inv_init Hrun). Qed.

Lemma sorted_before (l : list (nat * bytes * string)) (a b : nat * bytes * string) :
  StronglySorted (fun x y => entry_idx x < entry_idx y)%nat l ->
  In a l -> In b l -> (entry_idx a < entry_idx b)%nat ->
  exists pre mid post, l = pre ++ a :: mid ++ b :: post.
Proof.
  induction 1 as [|x l Hs IH Hx]; intros Ha Hb Hab; [destruct Ha|].
  destruct Ha as [<-|Ha].
  - destruct Hb as [<-|Hb]; [lia|].
    destruct (in_split b l Hb) as [mid [post ->]].
    exists [], mid, post. reflexivity.
  - destruct Hb as [<-|Hb].
    + rewrite Forall_forall in Hx. specialize (Hx a Ha). lia.
    + destruct (IH Ha Hb Hab) as [pre [mid [post ->]]].
      exists (x :: pre), mid, post. reflexivity.
Qed.

(* ================================================================== *)
(** * Claims on the running overlay *)

(** C6: end-to-end FIFO.  In every reachable state, each string put on
    [text_queue] is tagged with the chunk whose iteration put it, and that
    chunk is the one put on [audio_queue] at that position; if chunk [i1]
    was put on [audio_queue] before chunk [i2], the string derived from
    chunk [i1] was put on [text_queue] before the one derived from chunk
    [i2]; and [text_queue] holds the strings put so far minus those the GUI
    already took from its head. *)
Theorem pipeline_fifo (style : string) (o : overlay) :
  reachable style o ->
  (forall i c t, In (i, c, t) (text_log o) -> nth_error (seg_log o) i = Some c) /\
  (forall i1 c1 t1 i2 c2 t2, (i1 < i2)%nat ->
     In (i1, c1, t1) (text_log o) -> In (i2, c2, t2) (text_log o) ->
     exists pre mid post, text_log o = pre ++ (i1, c1, t1) :: mid ++ (i2, c2, t2) :: post) /\
  (exists popped, map entry_text (text_log o) = popped ++ text_queue o).
Proof.
  intros Hr. destruct (inv_reachable style o Hr) as (_ & _ & _ & _ & Hlog & Hsort & Hpop).
  split; [|split; [|exact Hpop]].
  - intros i c t Hin. exact (proj2 (Hlog i c t Hin)).
  - intros i1 c1 t1 i2 c2 t2 Hlt H1 H2.
    exact (sorted_before (text_log o) (i1, c1, t1) (i2, c2, t2) Hsort H1 H2 Hlt).
Qed.

Lemma pipeline_fifo_witness :
  exists o, run_events "honorific"%string init fifo_trace = Some o /\
    exists pre mid post, text_log o =
      pre ++ (0%nat, silent_frame, "a"%string) :: mid ++ (1%nat, silent_frame, "b"%string) :: post.
Proof.
  destruct (run_events "honorific"%string init fifo_trace) as [o|] eqn:Hrun;
    [|vm_compute in Hrun; discriminate].
  exists o. split; [reflexivity|].
  assert (Hlog : text_log o = [(0%nat, silent_frame, "a"%string); (1%nat, silent_frame, "b"%string)]).
  { vm_compute in Hrun. injection Hrun as <-. reflexivity. }
  apply (proj1 (proj2 (pipeline_fifo "honorific"%string o (ex_intro _ fifo_trace Hrun))));
    [lia | rewrite Hlog; left; reflexivity | rewrite Hlog; right; left; reflexivity].
Defined.

(** C9: every chunk the transcription loop takes from [audio_queue] in a
    reachable state decodes into int16 samples, each sample [s] becomes
    [s / 32768] (exact in float32: [s] has at most 16 significant bits and
    32768 is a power of two), every such value lies in [-1, 1), and the
    model is invoked on exactly these values. *)
Theorem transcribe_input_normalized (style : string) (o : overlay) (chunk : bytes)
  (rest : list bytes) :
  reachable style o -> audio_queue o = chunk :: rest ->
  exists samples,
    frombuffer_int16 chunk = Some samples /\
    Forall (fun s => -32768 <= s <= 32767) samples /\
    pcm_to_float chunk = Ok (map (fun s => (inject_Z s / inject_Z 32768)%Q) samples) /\
    Forall (fun x => (-1 <= x)%Q /\ (x < 1)%Q) (map to_float samples) /\
    (forall model client, transcribe_iter model client style chunk =
                          after_asr client style (model (map to_float samples))).
Proof.
  intros Hr Hq. destruct (inv_reachable style o Hr) as (_ & Haq & _).
  rewrite Hq in Haq. destruct (Forall_inv Haq) as [k Hk].
  destruct (frombuffer_even chunk k Hk) as [samples [Hbuf Hb]].
  exists samples. split; [exact Hbuf|]. split; [exact Hb|].
  split; [unfold pcm_to_float; rewrite Hbuf; reflexivity|]. split.
  - apply Forall_map. eapply Forall_impl; [|exact Hb]. intros s Hs.
    exact (to_float_bounds s Hs).
  - intros model client. unfold transcribe_iter, pcm_to_float. rewrite Hbuf. reflexivity.
Qed.

Lemma transcribe_input_normalized_witness :
  exists o rest, run_events "honorific"%string init (firstn 4 fifo_trace) = Some o /\
    audio_queue o = silent_frame :: rest /\
    exists samples, frombuffer_int16 silent_frame = Some samples /\
      Forall (fun x => (-1 <= x)%Q /\ (x < 1)%Q) (map to_float samples).
Proof.
  destruct (run_events "honorific"%string init (firstn 4 fifo_trace)) as [o|] eqn:Hrun;
    [|vm_compute in Hrun; discriminate].
  assert (Hq : audio_queue o = [silent_frame]).
  { vm_compute in Hrun. injection Hrun as <-. reflexivity. }
  exists o, []. split; [reflexivity|]. split; [exact Hq|].
  destruct (transcribe_input_normalized "honorific"%string o silent_frame []
              (ex_intro _ (firstn 4 fifo_trace) Hrun) Hq)
    as [samples [Hbuf [_ [_ [Hin _]]]]].
  exists samples. split; [exact Hbuf | exact Hin].
Defined.

(** C7 (code bug): [self.model.transcribe] and the join of its fragments
    (lines 75-76) run outside the [try] of lines 78-82 that turns a
    translation failure into a display string.  An exception raised by the
    model is therefore not turned into a display string: it leaves
    [_transcribe_loop], whose thread is over: nothing was put on
    [text_queue] and no later chunk is ever taken. *)
Lemma asr_failure_escapes :
  exists o, run_events "honorific"%string init asr_failure_trace = Some o /\
    tr_pc o = TrDied "CUDA out of memory"%string /\ text_queue o = [] /\
    step "honorific"%string o TrCheck = None /\
    (forall model client, step "honorific"%string o (TrItem model client) = None).
Proof.
  destruct (run_events "honorific"%string init asr_failure_trace) as [o|] eqn:Hrun;
    [|vm_compute in Hrun; discriminate].
  vm_compute in Hrun. injection Hrun as <-.
  exists (mk_overlay [] [] [] true "Listening..."%string GuiStart CapHead
            (TrDied "CUDA out of memory"%string) [silent_frame] 1 []).
  split; [reflexivity|]. split; [reflexivity|]. split; [reflexivity|].
  split; [reflexivity|]. intros model client. reflexivity.
Qed.

(** A transcription loop blocked in [audio_queue.get()] on an empty queue,
    with the flag cleared and the capture loop out of [rec.record], stays
    blocked: no step puts a chunk on the queue again. *)
Lemma get_blocked_step (style : string) (o o' : overlay) (ev : event) :
  running o = false -> tr_pc o = TrGet -> audio_queue o = [] -> cap_pc o <> CapRecord ->
  step style o ev = Some o' ->
  running o' = false /\ tr_pc o' = TrGet /\ audio_queue o' = [] /\ cap_pc o' <> CapRecord.
Proof.
  intros Hr Ht Hq Hc Hs. unfold step in Hs.
  destruct ev as [| mono speech | e | | model client | | | |].
  - destruct (cap_pc o); try discriminate. injection Hs as <-. cbn.
    rewrite Hr. repeat split; try assumption. discriminate.
  - destruct (cap_pc o); try discriminate. congruence.
  - destruct (cap_pc o); try discriminate. congruence.
  - rewrite Ht in Hs. discriminate.
  - rewrite Ht, Hq in Hs. discriminate.
  - destruct (gui_pc o); try discriminate. injection Hs as <-. cbn. auto.
  - destruct (gui_pc o); try discriminate.
    destruct (text_queue o); injection Hs as <-; cbn; auto.
  - destruct (gui_pc o); try discriminate. injection Hs as <-. cbn. auto.
  - destruct (gui_pc o); try discriminate. injection Hs as <-. cbn. auto.
Qed.

Lemma get_blocked_run (style : string) (evs : list event) :
  forall o o', running o = false -> tr_pc o = TrGet -> audio_queue o = [] ->
  cap_pc o <> CapRecord -> run_events style o evs = Some o' -> tr_pc o' = TrGet.
Proof.
  induction evs as [|ev rest IH]; intros o o' Hr Ht Hq Hc Hrun; cbn in Hrun.
  - injection Hrun as <-. exact Ht.
  - destruct (step style o ev) as [o1|] eqn:Hs; [|discriminate].
    destruct (get_blocked_step style o o1 ev Hr Ht Hq Hc Hs) as (Hr1 & Ht1 & Hq1 & Hc1).
    exact (IH o1 o' Hr1 Ht1 Hq1 Hc1 Hrun).
Qed.

(** C8 (as stated, refuted): after [on_close] has cleared the flag, a
    transcription loop blocked in [audio_queue.get()] on an empty queue
    does not observe it: whatever the threads do next, the loop never
    leaves the [get]. *)
Lemma shutdown_get_blocks :
  exists o, run_events "honorific"%string init shutdown_trace = Some o /\
    running o = false /\ audio_queue o = [] /\ tr_pc o = TrGet /\
    (forall evs o', run_events "honorific"%string o evs = Some o' -> tr_pc o' = TrGet).
Proof.
  destruct (run_events "honorific"%string init shutdown_trace) as [o|] eqn:Hrun;
    [|vm_compute in Hrun; discriminate].
  vm_compute in Hrun. injection Hrun as <-.
  eexists. split; [reflexivity|]. split; [reflexivity|]. split; [reflexivity|].
  split; [reflexivity|]. intros evs o' Hr.
  refine (get_blocked_run "honorific"%string evs _ o' _ _ _ _ Hr);
    cbn; [reflexivity | reflexivity | reflexivity | discriminate].
Qed.

(** C8 (amended): once [on_close] has cleared the flag it stays cleared,
    and [on_close] then destroys the window, which ends the GUI loop; a
    worker loop at its [while self.running] test exits; a worker loop whose
    blocking call returns normally and whose iteration completes comes back
    to the test; but [audio_queue.get()] has no timeout and does not
    observe the flag: a transcription loop blocked there on an empty queue
    that the capture loop no longer feeds stays blocked in every
    continuation. *)
Theorem shutdown_cooperative (style : string) (o : overlay) :
  running o = false ->
  (forall ev o', step style o ev = Some o' -> running o' = false) /\
  (gui_pc o = GuiClosing ->
     exists o', step style o GuiDestroy = Some o' /\ gui_pc o' = GuiDone) /\
  (cap_pc o = CapHead -> exists o', step style o CapCheck = Some o' /\ cap_pc o' = CapExit) /\
  (tr_pc o = TrHead -> exists o', step style o TrCheck = Some o' /\ tr_pc o' = TrExit) /\
  (forall mono speech o', step style o (CapFrame mono speech) = Some o' ->
     cap_pc o' = CapHead) /\
  (forall model client chunk rest puts, tr_pc o = TrGet -> audio_queue o = chunk :: rest ->
     transcribe_iter model client style chunk = Continue puts ->
     exists o', step style o (TrItem model client) = Some o' /\ tr_pc o' = TrHead) /\
  (tr_pc o = TrGet -> audio_queue o = [] -> cap_pc o <> CapRecord ->
     forall evs o', run_events style o evs = Some o' -> tr_pc o' = TrGet).
Proof.
  intros Hrun. split; [|split; [|split; [|split; [|split; [|split]]]]].
  - intros ev o' Hs. unfold step in Hs.
    destruct ev as [| mono speech | e | | model client | | | |].
    + destruct (cap_pc o); try discriminate. injection Hs as <-. exact Hrun.
    + destruct (cap_pc o); try discriminate.
      destruct (seg_step _ _ _). injection Hs as <-. exact Hrun.
    + destruct (cap_pc o); try discriminate. injection Hs as <-. exact Hrun.
    + destruct (tr_pc o); try discriminate. injection Hs as <-. exact Hrun.
    + destruct (tr_pc o), (audio_queue o); try discriminate.
      destruct (transcribe_iter _ _ _ _); injection Hs as <-; exact Hrun.
    + destruct (gui_pc o); try discriminate. injection Hs as <-. exact Hrun.
    + destruct (gui_pc o); try discriminate.
      destruct (text_queue o); injection Hs as <-; exact Hrun.
    + destruct (gui_pc o); try discriminate. injection Hs as <-. reflexivity.
    + destruct (gui_pc o); try discriminate. injection Hs as <-. exact Hrun.
  - intros Hpc. unfold step. rewrite Hpc. eexists. split; reflexivity.
  - intros Hpc. unfold step. rewrite Hpc, Hrun. eexists. split; reflexivity.
  - intros Hpc. unfold step. rewrite Hpc, Hrun. eexists. split; reflexivity.
  - intros mono speech o' Hs. unfold step in Hs. destruct (cap_pc o); try discriminate.
    destruct (seg_step _ _ _). injection Hs as <-. reflexivity.
  - intros model client chunk rest puts Hpc Hq Hit. unfold step.
    rewrite Hpc, Hq, Hit. eexists. split; reflexivity.
  - intros Hpc Hq Hc evs o' Hr. exact (get_blocked_run style evs o o' Hrun Hpc Hq Hc Hr).
Qed.

Lemma shutdown_cooperative_witness :
  (exists o', run_events "honorific"%string stopped_waiting [GuiDestroy] = Some o' /\
     tr_pc o' = TrGet) /\
  (exists o', step "honorific"%string
                (mk_overlay [] [] [] false "Listening..."%string GuiClosing CapExit TrHead [] 0 [])
                TrCheck = Some o' /\ tr_pc o' = TrExit).
Proof.
  split.
  - destruct (run_events "honorific"%string stopped_waiting [GuiDestroy]) as [o'|] eqn:Hr;
      [|vm_compute in Hr; discriminate].
    exists o'. split; [reflexivity|].
    exact (proj2 (proj2 (proj2 (proj2 (proj2 (proj2
             (shutdown_cooperative "honorific"%string stopped_waiting eq_refl))))))
             eq_refl eq_refl ltac:(discriminate) [GuiDestroy] o' Hr).
  - exact (proj1 (proj2 (proj2 (proj2 (shutdown_cooperative "honorific"%string
             (mk_overlay [] [] [] false "Listening..."%string GuiClosing CapExit TrHead [] 0 [])
             eq_refl)))) eq_refl).
Defined.

(* ================================================================== *)
(** * Further properties: PCM16 encoding and decoding *)

Lemma byte_of_Z_to_N (z : Z) : Z.of_N (Byte.to_N (byte_of_Z z)) = z mod 256.
Proof.
  unfold byte_of_Z. pose proof (Z.mod_pos_bound z 256 ltac:(lia)) as Hb.
  destruct (Byte.of_N (Z.to_N (z mod 256))) as [b|] eqn:E.
  - apply Byte.to_of_N in E. rewrite E. apply Z2N.id. lia.
  - pose proof (Byte.to_of_N_option_map (Z.to_N (z mod 256))) as H.
    rewrite E in H. simpl in H.
    destruct (N.leb_spec (Z.to_N (z mod 256)) 255); [discriminate|].
    exfalso. apply N2Z.inj_lt in H0. rewrite Z2N.id in H0 by lia. simpl in H0. lia.
Qed.

Lemma int16_of_encode (v : Z) : -32768 <= v <= 32767 ->
  int16_of (byte_of_Z (v mod 65536)) (byte_of_Z (v mod 65536 / 256)) = v.
Proof.
  intros Hv. unfold int16_of. rewrite !byte_of_Z_to_N.
  pose proof (Z.mod_pos_bound v 65536 ltac:(lia)) as Hu.
  set (u := v mod 65536) in *.
  rewrite (Z.mod_small (u / 256) 256) by (split; [apply Z.div_pos | apply Z.div_lt_upper_bound]; lia).
  pose proof (Z.div_mod u 256 ltac:(lia)) as Hd.
  replace (u mod 256 + 256 * (u / 256)) with u by lia.
  assert (Hc : u = v \/ u = v + 65536).
  { destruct (Z.leb_spec 0 v).
    - left. unfold u. apply Z.mod_small. lia.
    - right. unfold u. rewrite <- (Z.mod_small (v + 65536) 65536) by lia.
      replace (v + 65536) with (v + 1 * 65536) by lia. rewrite Z.mod_add by lia. reflexivity. }
  destruct (Z.ltb_spec u 32768); lia.
Qed.

Lemma frombuffer_tobytes (vs : list Z) :
  Forall (fun v => -32768 <= v <= 32767) vs -> frombuffer_int16 (tobytes vs) = Some vs.
Proof.
  induction 1 as [|v vs Hv _ IH]; [reflexivity|].
  simpl. rewrite IH, int16_of_encode by exact Hv. reflexivity.
Qed.

Lemma frombuffer_app (a b : bytes) (xa xb : list Z) :
  frombuffer_int16 a = Some xa -> frombuffer_int16 b = Some xb ->
  frombuffer_int16 (a ++ b) = Some (xa ++ xb).
Proof.
  revert xa. induction a as [a IH] using (induction_ltof1 _ (@length _)); intros xa Ha.
  destruct a as [|lo [|hi r]].
  - injection Ha as <-. exact id.
  - discriminate.
  - simpl in Ha. destruct (frombuffer_int16 r) as [xr|] eqn:Er; [|discriminate].
    injection Ha as <-. intros Hb. simpl.
    rewrite (IH r ltac:(unfold ltof; simpl; lia) xr Er Hb). reflexivity.
Qed.

Lemma to_int16_bounds (x : Q) : -32768 <= to_int16 x <= 32767.
Proof. exact (proj2 (wrap16_spec _)). Qed.

(** X1: a chunk built by the capture loop from recorded frames (each the
    [tobytes] of the int16 conversion of the mono samples) decodes, in the
    transcription loop, into exactly the int16 samples of those frames, in
    recording order. *)
Theorem chunk_decodes_to_samples (monos : list (list Q)) :
  frombuffer_int16 (join (map pcm16_of monos)) = Some (List.concat (map (map to_int16) monos)).
Proof.
  induction monos as [|m ms IH]; [reflexivity|].
  unfold join in *. simpl. apply frombuffer_app; [|exact IH].
  unfold pcm16_of. apply frombuffer_tobytes.
  apply Forall_map, Forall_forall. intros x _. apply to_int16_bounds.
Qed.

(** Truncation toward zero of [n * 32768 / d]: the quotient and a remainder
    of the dividend's sign, smaller than [d]. *)
Lemma quot_32768 (n : Z) (d : positive) :
  exists r, n * 32768 = Z.pos d * Z.quot (n * 32768) (Z.pos d) + r /\
    (0 <= n -> 0 <= r < Z.pos d) /\ (n < 0 -> - Z.pos d < r <= 0).
Proof.
  destruct (Z.leb_spec 0 n).
  - rewrite Z.quot_div_nonneg by lia.
    pose proof (Z.div_mod (n * 32768) (Z.pos d) ltac:(lia)).
    pose proof (Z.mod_pos_bound (n * 32768) (Z.pos d) ltac:(lia)).
    exists ((n * 32768) mod Z.pos d). split; [lia|]. split; intros; lia.
  - replace (n * 32768) with (- ((- n) * 32768)) by ring.
    rewrite Z.quot_opp_l by lia. rewrite Z.quot_div_nonneg by lia.
    pose proof (Z.div_mod ((- n) * 32768) (Z.pos d) ltac:(lia)).
    pose proof (Z.mod_pos_bound ((- n) * 32768) (Z.pos d) ltac:(lia)).
    exists (- (((- n) * 32768) mod Z.pos d)). split; [lia|]. split; intros; lia.
Qed.

(** X2: for a recorded sample in [-1, 1) the capture loop's int16
    conversion does not wrap (it is the truncated product), and the
    transcription loop's float conversion gives back the sample to within
    one quantisation step 1/32768, rounding toward zero. *)
Theorem pcm16_in_range_roundtrip (x : Q) :
  (-1 <= x)%Q -> (x < 1)%Q ->
  to_int16 x = trunc (x * inject_Z 32768) /\
  (Qabs (to_float (to_int16 x) - x) < 1 # 32768)%Q /\
  ((0 <= x)%Q -> (to_float (to_int16 x) <= x)%Q) /\
  ((x <= 0)%Q -> (x <= to_float (to_int16 x))%Q).
Proof.
  intros Hlo Hhi. destruct x as [n d].
  unfold Qle, Qlt in Hlo, Hhi. simpl in Hlo, Hhi.
  assert (Htr : trunc ((n # d) * inject_Z 32768) = Z.quot (n * 32768) (Z.pos d)).
  { unfold trunc. simpl. rewrite Pos.mul_1_r. reflexivity. }
  destruct (quot_32768 n d) as [r [Hr [Hpos Hneg]]].
  set (q := Z.quot (n * 32768) (Z.pos d)) in *.
  assert (Hq : -32768 <= q <= 32767).
  { destruct (Z.leb_spec 0 n); [specialize (Hpos H) | specialize (Hneg H)]; nia. }
  assert (Hw : to_int16 (n # d) = q).
  { unfold to_int16. rewrite Htr, c_int_id by lia. unfold wrap16.
    destruct (Z.leb_spec 0 q).
    - rewrite Z.mod_small by lia. destruct (Z.ltb_spec q 32768); lia.
    - assert (Hm : q mod 65536 = q + 65536).
      { rewrite <- (Z.mod_add q 1 65536) by lia. apply Z.mod_small. lia. }
      rewrite Hm. destruct (Z.ltb_spec (q + 65536) 32768); lia. }
  rewrite Hw, Htr. split; [reflexivity|].
  unfold to_float. split; [|split].
  - apply Qabs_Qlt_condition. unfold Qminus, Qdiv, Qlt, Qplus, Qmult, Qinv, Qopp; simpl.
    destruct (Z.leb_spec 0 n); [specialize (Hpos H) | specialize (Hneg H)]; split; nia.
  - intros H0. unfold Qle in H0. simpl in H0. specialize (Hpos ltac:(lia)).
    unfold Qdiv, Qle, Qmult, Qinv; simpl. nia.
  - intros H0. unfold Qle in H0. simpl in H0.
    unfold Qdiv, Qle, Qmult, Qinv; simpl.
    destruct (Z.eq_dec n 0) as [->|Hn].
    + simpl in q. subst q. simpl. lia.
    + specialize (Hneg ltac:(lia)). nia.
Qed.

Lemma pcm16_in_range_roundtrip_witness :
  to_int16 (1 # 3) = 10922 /\
  (Qabs (to_float (to_int16 (1 # 3)) - (1 # 3)) < 1 # 32768)%Q.
Proof.
  destruct (pcm16_in_range_roundtrip (1 # 3) ltac:(unfold Qle; simpl; lia)
              ltac:(unfold Qlt; simpl; lia)) as [H1 [H2 _]].
  split; [rewrite H1; reflexivity | exact H2].
Defined.

(* ================================================================== *)
(** * Further properties: [str.strip] *)

Lemma list_ascii_append (a b : string) :
  list_ascii_of_string (a ++ b)%string = list_ascii_of_string a ++ list_ascii_of_string b.
Proof. induction a as [|c a IH]; simpl; [reflexivity | rewrite IH; reflexivity]. Qed.

Lemma lstrip_split (s : string) :
  exists pre, s = (pre ++ lstrip s)%string /\
    forallb py_isspace (list_ascii_of_string pre) = true /\
    (forall a r, lstrip s = String a r -> py_isspace a = false).
Proof.
  induction s as [|c r IH].
  - exists EmptyString. simpl. split; [reflexivity|]. split; [reflexivity | discriminate].
  - simpl. destruct (py_isspace c) eqn:Hc.
    + destruct IH as [pre [Hs [Hp Hh]]]. exists (String c pre). simpl.
      rewrite Hc, Hp. split; [rewrite <- Hs; reflexivity|]. split; [reflexivity | exact Hh].
    + exists EmptyString. simpl. split; [reflexivity|]. split; [reflexivity|].
      intros a r' H. injection H as <- _. exact Hc.
Qed.

Lemma rstrip_split (s : string) :
  exists post, s = (rstrip s ++ post)%string /\
    forallb py_isspace (list_ascii_of_string post) = true /\
    (forall pre a, list_ascii_of_string (rstrip s) = pre ++ [a] -> py_isspace a = false) /\
    (forall a r, s = String a r -> py_isspace a = false ->
       exists r', rstrip s = String a r').
Proof.
  induction s as [|c r IH].
  - exists EmptyString. simpl. split; [reflexivity|]. split; [reflexivity|].
    split; [intros pre a H; destruct pre; discriminate | discriminate].
  - destruct IH as [post [Hs [Hp [Hl _]]]]. simpl.
    destruct (String.eqb_spec (rstrip r) EmptyString) as [He|He];
      destruct (py_isspace c) eqn:Hc; simpl.
    + exists (String c post). simpl. rewrite Hc, Hp. split.
      * rewrite Hs at 1. rewrite He. reflexivity.
      * split; [reflexivity|]. split; [intros pre a H; destruct pre; discriminate|].
        intros a r' H; injection H as <- _. congruence.
    + exists post. split; [rewrite Hs at 1; reflexivity|]. split; [exact Hp|]. split.
      * intros pre a H. rewrite He in H. simpl in H.
        destruct pre as [|b pre']; simpl in H;
          [injection H as <-; exact Hc | injection H as _ H2; destruct pre'; discriminate].
      * intros a r' H _. injection H as <- _. eexists; reflexivity.
    + exists post. split; [rewrite Hs at 1; reflexivity|]. split; [exact Hp|]. split.
      * intros pre a H. destruct pre as [|b pre']; simpl in H.
        -- injection H as _ H2. destruct (rstrip r); [congruence | discriminate].
        -- injection H as _ H2. exact (Hl pre' a H2).
      * intros a r' H _. injection H as <- _. eexists; reflexivity.
    + exists post. split; [rewrite Hs at 1; reflexivity|]. split; [exact Hp|]. split.
      * intros pre a H. destruct pre as [|b pre']; simpl in H.
        -- injection H as _ H2. destruct (rstrip r); [congruence | discriminate].
        -- injection H as _ H2. exact (Hl pre' a H2).
      * intros a r' H _. injection H as <- _. eexists; reflexivity.
Qed.

Lemma strip_decompose (s : string) :
  exists pre post,
    s = (pre ++ strip s ++ post)%string /\
    forallb py_isspace (list_ascii_of_string pre) = true /\
    forallb py_isspace (list_ascii_of_string post) = true /\
    (forall a r, strip s = String a r -> py_isspace a = false) /\
    (forall l a, list_ascii_of_string (strip s) = l ++ [a] -> py_isspace a = false).
Proof.
  destruct (lstrip_split s) as [pre [Hs [Hp Hh]]].
  destruct (rstrip_split (lstrip s)) as [post [Hs' [Hp' [Hl Hfirst]]]].
  exists pre, post. unfold strip. split; [|split; [exact Hp|split; [exact Hp'|split]]].
  - rewrite Hs at 1. rewrite Hs' at 1. reflexivity.
  - intros a r H. destruct (lstrip s) as [|c r0] eqn:E; [discriminate|].
    specialize (Hh c r0 eq_refl).
    destruct (Hfirst c r0 eq_refl Hh) as [r' Hr']. rewrite Hr' in H.
    injection H as <- _. exact Hh.
  - exact Hl.
Qed.

(** X3: [str.strip] as used on the joined transcript and on the model's
    reply removes only whitespace, from both ends, and leaves a string
    that is empty or begins and ends with a non-whitespace character. *)
Theorem strip_spec (s : string) :
  exists pre post,
    s = (pre ++ strip s ++ post)%string /\
    forallb py_isspace (list_ascii_of_string pre) = true /\
    forallb py_isspace (list_ascii_of_string post) = true /\
    (forall a r, strip s = String a r -> py_isspace a = false) /\
    (forall l a, list_ascii_of_string (strip s) = l ++ [a] -> py_isspace a = false).
Proof. exact (strip_decompose s). Qed.

(** X4: [str.strip] empties a string exactly when the string is all
    whitespace; so [if text:] in the transcription loop skips exactly the
    empty or whitespace-only transcripts. *)
Theorem strip_empty_iff (s : string) :
  strip s = EmptyString <-> forallb py_isspace (list_ascii_of_string s) = true.
Proof.
  split; [|apply strip_all_space].
  intros H. destruct (strip_decompose s) as [pre [post [Hs [Hp [Hq _]]]]].
  rewrite H in Hs. simpl in Hs. rewrite Hs, list_ascii_append, forallb_app, Hp, Hq.
  reflexivity.
Qed.

Lemma rstrip_fixed (t : string) :
  (forall l a, list_ascii_of_string t = l ++ [a] -> py_isspace a = false) ->
  rstrip t = t.
Proof.
  induction t as [|c r IH]; intros Hl; [reflexivity|]. simpl.
  destruct r as [|c' r'].
  - simpl. rewrite (Hl [] c eq_refl). reflexivity.
  - rewrite IH.
    + reflexivity.
    + intros l a H. apply (Hl (c :: l) a). simpl in *. rewrite H. reflexivity.
Qed.

(** X5: stripping twice is stripping once; in particular a successful
    [translate_text] returns a string that is already stripped. *)
Theorem strip_idempotent (s : string) :
  strip (strip s) = strip s /\
  (forall client text style t, translate_text client text style = Ok t -> strip t = t).
Proof.
  assert (Hidem : forall s, strip (strip s) = strip s).
  { intros s0. destruct (strip_decompose s0) as [_ [_ [_ [_ [_ [Hh Hl]]]]]].
    unfold strip at 1.
    assert (Hls : lstrip (strip s0) = strip s0).
    { destruct (strip s0) as [|a r] eqn:E; [reflexivity|]. simpl.
      rewrite (Hh a r eq_refl). reflexivity. }
    rewrite Hls. apply rstrip_fixed. exact Hl. }
  split; [apply Hidem|].
  intros client text style t. unfold translate_text.
  destruct (client (messages text style)) as [e|[|[c|] cs]]; try discriminate.
  intros H. injection H as <-. apply Hidem.
Qed.

Lemma strip_idempotent_witness :
  strip (strip " a b "%string) = strip " a b "%string /\
  strip "hi"%string = "hi"%string.
Proof.
  split; [exact (proj1 (strip_idempotent " a b "%string))|].
  apply (proj2 (strip_idempotent EmptyString) (fun _ => ApiReturned [Some " hi "%string])
           "x"%string "honorific"%string "hi"%string).
  reflexivity.
Defined.

Lemma strip_empty_iff_witness :
  strip "   "%string = EmptyString /\ strip " a"%string <> EmptyString.
Proof.
  split.
  - apply (proj2 (strip_empty_iff "   "%string)). reflexivity.
  - intros H. apply (proj1 (strip_empty_iff " a"%string)) in H. discriminate.
Defined.

Lemma strip_spec_witness :
  exists pre post, " hi  "%string = (pre ++ "hi" ++ post)%string /\
    forallb py_isspace (list_ascii_of_string pre) = true.
Proof.
  destruct (strip_spec " hi  "%string) as [pre [post [Hs [Hp [_ [Hh _]]]]]].
  exists pre, post. split; [exact Hs | exact Hp].
Defined.

(* ================================================================== *)
(** * Further properties: the segmenter keeps every voiced frame *)

(** X6: the segmenter drops non-voiced frames and nothing else: the
    chunks it puts on [audio_queue], followed by what is still buffered,
    are byte for byte the buffered frames followed by the voiced frames of
    the input, in order. *)
Theorem seg_run_conserves (input : list (bytes * bool)) :
  forall vf,
  join (snd (seg_run vf input)) ++ join (fst (seg_run vf input)) =
  join vf ++ join (map fst (filter snd input)).
Proof.
  induction input as [|[f b] rest IH]; intros vf.
  - simpl. rewrite app_nil_r. reflexivity.
  - rewrite seg_run_cons. cbn [fst snd].
    destruct (seg_step vf f b) as [vf' out] eqn:Hs.
    specialize (IH vf').
    destruct (seg_run vf' rest) as [vf'' outs] eqn:Hr. cbn [fst snd] in *.
    unfold seg_step in Hs. destruct b; cbn [filter map].
    + destruct (MAX_CHUNK_FRAMES <=? length (vf ++ [f]))%nat; injection Hs as <- <-.
      * unfold join in *. cbn [List.concat]. rewrite <- app_assoc, IH.
        cbn. rewrite concat_app. cbn. rewrite app_nil_r, <- app_assoc. reflexivity.
      * unfold join in *. rewrite IH, concat_app. cbn. rewrite app_nil_r, <- app_assoc.
        reflexivity.
    + destruct vf as [|g vf0]; injection Hs as <- <-.
      * exact IH.
      * unfold join in *. cbn [List.concat]. rewrite <- app_assoc, IH. reflexivity.
Qed.

Lemma seg_run_conserves_witness :
  join (snd (seg_run [] [(silent_frame, true); ([Byte.x01; Byte.x01], false);
                          (silent_frame, true)])) ++
  join (fst (seg_run [] [(silent_frame, true); ([Byte.x01; Byte.x01], false);
                          (silent_frame, true)])) =
  silent_frame ++ silent_frame.
Proof.
  rewrite seg_run_conserves. reflexivity.
Defined.

(* ================================================================== *)
(** * Further properties: invariants of the running overlay *)

Lemma reachable_ind (style : string) (P : overlay -> Prop) :
  P init ->
  (forall o ev o', P o -> step style o ev = Some o' -> P o') ->
  forall o, reachable style o -> P o.
Proof.
  intros Hinit Hstep o [evs Hrun].
  assert (H : forall evs o0 o1, P o0 -> run_events style o0 evs = Some o1 -> P o1).
  { induction evs0 as [|ev rest IH]; intros o0 o1 H0 Hr; simpl in Hr.
    - injection Hr as <-. exact H0.
    - destruct (step style o0 ev) as [o2|] eqn:Hs; [|discriminate].
      exact (IH o2 o1 (Hstep o0 ev o2 H0 Hs) Hr). }
  exact (H evs init o Hinit Hrun).
Qed.

(** X7: no chunk is lost or duplicated between the two threads: the
    chunks ever put on [audio_queue] are those the transcription loop has
    taken, followed by those still queued, in order. *)
Theorem audio_queue_conserves (style : string) (o : overlay) :
  reachable style o ->
  seg_log o = firstn (consumed o) (seg_log o) ++ audio_queue o.
Proof.
  intros Hr. destruct (inv_reachable style o Hr) as (_ & _ & _ & Hskip & _).
  rewrite <- Hskip. symmetry. apply firstn_skipn.
Qed.

Lemma audio_queue_conserves_witness :
  exists o, run_events "honorific"%string init (firstn 4 fifo_trace) = Some o /\
    seg_log o = firstn (consumed o) (seg_log o) ++ audio_queue o.
Proof.
  destruct (run_events "honorific"%string init (firstn 4 fifo_trace)) as [o|] eqn:Hrun;
    [|vm_compute in Hrun; discriminate].
  exists o. split; [reflexivity|].
  exact (audio_queue_conserves "honorific"%string o (ex_intro _ _ Hrun)).
Defined.

Lemma sorted_length (l : list (nat * bytes * string)) :
  StronglySorted (fun x y => entry_idx x < entry_idx y)%nat l ->
  forall m n, Forall (fun e => m <= entry_idx e < n)%nat l -> (length l <= n - m)%nat.
Proof.
  induction 1 as [|x l Hs IH Hx]; intros m n Hb; simpl; [lia|].
  inversion Hb as [|? ? Hxb Hlb]; subst.
  assert (Hl : Forall (fun e => S (entry_idx x) <= entry_idx e < n)%nat l).
  { rewrite Forall_forall in *. intros e He. specialize (Hx e He). specialize (Hlb e He). lia. }
  specialize (IH (S (entry_idx x)) n Hl). lia.
Qed.

(** X8: the transcription loop puts at most one string on [text_queue] per
    chunk it has taken. *)
Theorem text_per_chunk (style : string) (o : overlay) :
  reachable style o -> (length (text_log o) <= consumed o)%nat.
Proof.
  intros Hr. destruct (inv_reachable style o Hr) as (_ & _ & _ & _ & Hlog & Hsort & _).
  replace (consumed o) with (consumed o - 0)%nat by lia.
  apply (sorted_length _ Hsort). apply Forall_forall.
  intros [[i c] t] Hin. unfold entry_idx; cbn. specialize (Hlog i c t Hin). lia.
Qed.

Lemma text_per_chunk_witness :
  exists o, run_events "honorific"%string init fifo_trace = Some o /\
    (length (text_log o) <= consumed o)%nat.
Proof.
  destruct (run_events "honorific"%string init fifo_trace) as [o|] eqn:Hrun;
    [|vm_compute in Hrun; discriminate].
  exists o. split; [reflexivity|].
  exact (text_per_chunk "honorific"%string o (ex_intro _ _ Hrun)).
Defined.

(** Nothing is taken from [text_queue] before the window exists. *)
Lemma label_step (style : string) (o o' : overlay) (ev : event) :
  (exists popped, map entry_text (text_log o) = popped ++ text_queue o /\
     label_text o = last popped "Listening..."%string /\
     (gui_pc o = GuiStart -> popped = [])) ->
  step style o ev = Some o' ->
  exists popped, map entry_text (text_log o') = popped ++ text_queue o' /\
     label_text o' = last popped "Listening..."%string /\
     (gui_pc o' = GuiStart -> popped = []).
Proof.
  intros [popped [Hpop [Hlab Hst]]] Hs. unfold step in Hs.
  destruct ev as [| mono speech | e | | model client | | | |].
  - destruct (cap_pc o); try discriminate. injection Hs as <-. exists popped. auto.
  - destruct (cap_pc o); try discriminate. destruct (seg_step _ _ _).
    injection Hs as <-. exists popped. auto.
  - destruct (cap_pc o); try discriminate. injection Hs as <-. exists popped. auto.
  - destruct (tr_pc o); try discriminate. injection Hs as <-. exists popped. auto.
  - destruct (tr_pc o), (audio_queue o) as [|chunk rest]; try discriminate.
    destruct (transcribe_iter model client style chunk) as [puts|e];
      injection Hs as <-; exists popped; cbn; [|auto].
    rewrite map_app, Hpop, map_map, <- app_assoc. cbn. rewrite map_id. auto.
  - destruct (gui_pc o); try discriminate. injection Hs as <-.
    exists popped. cbn. rewrite (Hst eq_refl) in *. split; [exact Hpop|].
    split; [reflexivity | discriminate].
  - destruct (gui_pc o) eqn:Eg; try discriminate.
    destruct (text_queue o) as [|t rest] eqn:Etq.
    + injection Hs as <-. exists popped. rewrite Etq.
      split; [exact Hpop | split; [exact Hlab | intros HH; congruence]].
    + injection Hs as <-. exists (popped ++ [t]). cbn. split; [|split].
      * rewrite Hpop, <- app_assoc. reflexivity.
      * rewrite last_last. reflexivity.
      * discriminate.
  - destruct (gui_pc o); try discriminate. injection Hs as <-. exists popped.
    cbn. split; [exact Hpop | split; [exact Hlab | discriminate]].
  - destruct (gui_pc o); try discriminate. injection Hs as <-. exists popped.
    cbn. split; [exact Hpop | split; [exact Hlab | discriminate]].
Qed.

(** X9: the overlay's label shows "Listening..." until the GUI's timer
    takes its first string from [text_queue], and from then on the last
    string it took; the strings taken are, in order, the first strings the
    transcription loop put, and the rest are still queued. *)
Theorem label_shows_last_taken (style : string) (o : overlay) :
  reachable style o ->
  exists popped, map entry_text (text_log o) = popped ++ text_queue o /\
    label_text o = last popped "Listening..."%string.
Proof.
  intros Hr.
  destruct (reachable_ind style (fun o => exists popped,
              map entry_text (text_log o) = popped ++ text_queue o /\
              label_text o = last popped "Listening..."%string /\
              (gui_pc o = GuiStart -> popped = []))
              ltac:(exists []; split; [reflexivity | split; reflexivity])
              (fun o0 ev o1 H Hs => label_step style o0 o1 ev H Hs) o Hr)
    as [popped [Hpop [Hlab _]]].
  exists popped. split; assumption.
Qed.

Lemma label_shows_last_taken_witness :
  exists o, run_events "honorific"%string init (fifo_trace ++ [GuiOpen; GuiTick]) = Some o /\
    label_text o = "a"%string.
Proof.
  destruct (run_events "honorific"%string init (fifo_trace ++ [GuiOpen; GuiTick])) as [o|] eqn:Hrun;
    [|vm_compute in Hrun; discriminate].
  exists o. split; [reflexivity|].
  destruct (label_shows_last_taken "honorific"%string o (ex_intro _ _ Hrun))
    as [popped [Hpop Hlab]].
  assert (Hlog : map entry_text (text_log o) = ["a"%string; "b"%string] /\
                 text_queue o = ["b"%string]).
  { vm_compute in Hrun. injection Hrun as <-. split; reflexivity. }
  destruct Hlog as [Hl Hq]. rewrite Hl, Hq in Hpop.
  change (["a"%string] ++ ["b"%string] = popped ++ ["b"%string]) in Hpop.
  apply app_inj_tail in Hpop. destruct Hpop as [Hp _].
  rewrite Hlab, <- Hp. reflexivity.
Defined.

(* ================================================================== *)
(** * Further properties: chunk sizes, and a dead transcription thread *)

Lemma seg_run_frames (P : bytes -> Prop) (input : list (bytes * bool)) :
  forall vf, Forall P vf -> Forall (fun p => P (fst p)) input ->
  (length vf < MAX_CHUNK_FRAMES)%nat ->
  forall c, In c (snd (seg_run vf input)) ->
    exists fs, c = join fs /\ Forall P fs /\ (1 <= length fs <= MAX_CHUNK_FRAMES)%nat.
Proof.
  induction input as [|[f b] rest IH]; intros vf Hvf Hin Hlt c Hc; [destruct Hc|].
  inversion Hin as [|? ? Hf Hrest]; subst. cbn [fst] in Hf.
  rewrite seg_run_cons in Hc. cbn [fst snd] in Hc.
  destruct (seg_step vf f b) as [vf' out] eqn:Hs.
  assert (Hb : (length vf' < MAX_CHUNK_FRAMES)%nat).
  { change vf' with (fst (vf', out)). rewrite <- Hs. now apply seg_step_bound. }
  assert (Hvf' : Forall P vf' /\ forall c0, out = Some c0 ->
            exists fs, c0 = join fs /\ Forall P fs /\ (1 <= length fs <= MAX_CHUNK_FRAMES)%nat).
  { unfold seg_step in Hs. destruct b.
    - assert (Happ : Forall P (vf ++ [f])) by (apply Forall_app; auto).
      destruct (MAX_CHUNK_FRAMES <=? length (vf ++ [f]))%nat eqn:Hle;
        injection Hs as <- <-; split; try discriminate; try constructor; auto.
      intros c0 Hc0; injection Hc0 as <-. exists (vf ++ [f]).
      apply Nat.leb_le in Hle. rewrite length_app in *; cbn in *.
      split; [reflexivity | split; [exact Happ | lia]].
    - destruct vf as [|g vf0]; injection Hs as <- <-; split; try discriminate; auto.
      intros c0 Hc0; injection Hc0 as <-. exists (g :: vf0). cbn in *.
      split; [reflexivity | split; [exact Hvf | lia]]. }
  destruct Hvf' as [HP Hout].
  destruct (seg_run vf' rest) as [vf'' outs] eqn:Hr. cbn [snd] in Hc.
  assert (IH' := IH vf' HP Hrest Hb). rewrite Hr in IH'. cbn [snd] in IH'.
  destruct out as [c0|]; [destruct Hc as [<-|Hc]|]; auto.
Qed.

Lemma join_length_uniform (n : nat) (fs : list bytes) :
  Forall (fun f => length f = n) fs -> length (join fs) = (length fs * n)%nat.
Proof.
  induction 1 as [|f fs Hf _ IH]; [reflexivity|].
  unfold join in *. cbn. rewrite length_app, Hf, IH. reflexivity.
Qed.

(** X11: when every recorded frame has [n] bytes (960 for the FRAME_SIZE =
    480 samples [rec.record] is asked for), every chunk put on
    [audio_queue] has [k * n] bytes for some [k] between 1 and
    [MAX_CHUNK_FRAMES] = 333: this is the bound on one model request. *)
Theorem chunk_size_bound (n : nat) (input : list (bytes * bool)) :
  Forall (fun p => length (fst p) = n) input ->
  forall c, In c (snd (seg_run [] input)) ->
    exists k, length c = (k * n)%nat /\ (1 <= k <= MAX_CHUNK_FRAMES)%nat.
Proof.
  intros Hin c Hc.
  destruct (seg_run_frames (fun f => length f = n) input [] (Forall_nil _) Hin
              ltac:(rewrite MAX_CHUNK_FRAMES_eq; cbn; lia) c Hc) as [fs [-> [Hfs Hk]]].
  exists (length fs). split; [apply join_length_uniform; exact Hfs | exact Hk].
Qed.

Lemma chunk_size_bound_witness :
  exists k, length (join [pcm16_of (repeat 0%Q (Z.to_nat FRAME_SIZE))]) = (k * 960)%nat /\
    (1 <= k <= MAX_CHUNK_FRAMES)%nat.
Proof.
  apply (chunk_size_bound 960
           [(pcm16_of (repeat 0%Q (Z.to_nat FRAME_SIZE)), true);
            (pcm16_of (repeat 0%Q (Z.to_nat FRAME_SIZE)), false)]).
  - repeat constructor.
  - vm_compute. left. reflexivity.
Defined.

Lemma dead_step (style : string) (e : exc) (o o' : overlay) (ev : event) :
  tr_pc o = TrDied e -> step style o ev = Some o' ->
  tr_pc o' = TrDied e /\ text_log o' = text_log o /\
  exists extra, audio_queue o' = audio_queue o ++ extra.
Proof.
  intros Hpc Hs. unfold step in Hs.
  destruct ev as [| mono speech | e' | | model client | | | |].
  - destruct (cap_pc o); try discriminate. injection Hs as <-. cbn.
    split; [exact Hpc | split; [reflexivity | exists []; rewrite app_nil_r; reflexivity]].
  - destruct (cap_pc o); try discriminate. destruct (seg_step _ _ _) as [vf out].
    injection Hs as <-. cbn. split; [exact Hpc | split; [reflexivity | eexists; reflexivity]].
  - destruct (cap_pc o); try discriminate. injection Hs as <-. cbn.
    split; [exact Hpc | split; [reflexivity | exists []; rewrite app_nil_r; reflexivity]].
  - rewrite Hpc in Hs. discriminate.
  - rewrite Hpc in Hs. discriminate.
  - destruct (gui_pc o); try discriminate. injection Hs as <-. cbn.
    split; [exact Hpc | split; [reflexivity | exists []; rewrite app_nil_r; reflexivity]].
  - destruct (gui_pc o); try discriminate.
    destruct (text_queue o); injection Hs as <-; cbn;
      (split; [exact Hpc | split; [reflexivity | exists []; rewrite app_nil_r; reflexivity]]).
  - destruct (gui_pc o); try discriminate. injection Hs as <-. cbn.
    split; [exact Hpc | split; [reflexivity | exists []; rewrite app_nil_r; reflexivity]].
  - destruct (gui_pc o); try discriminate. injection Hs as <-. cbn.
    split; [exact Hpc | split; [reflexivity | exists []; rewrite app_nil_r; reflexivity]].
Qed.

(** X12: once an exception has ended the transcription thread, no string
    is ever put on [text_queue] again, while the capture loop may go on
    putting chunks on [audio_queue], which nothing takes any more: the
    queue only grows. *)
Theorem dead_transcriber_stalls (style : string) (e : exc) (evs : list event) :
  forall o o', tr_pc o = TrDied e -> run_events style o evs = Some o' ->
  tr_pc o' = TrDied e /\ text_log o' = text_log o /\
  exists extra, audio_queue o' = audio_queue o ++ extra.
Proof.
  induction evs as [|ev rest IH]; intros o o' Hpc Hrun; cbn in Hrun.
  - injection Hrun as <-. split; [exact Hpc | split; [reflexivity|]].
    exists []. rewrite app_nil_r. reflexivity.
  - destruct (step style o ev) as [o1|] eqn:Hs; [|discriminate].
    destruct (dead_step style e o o1 ev Hpc Hs) as [Hpc1 [Hl1 [x1 Hq1]]].
    destruct (IH o1 o' Hpc1 Hrun) as [Hpc' [Hl' [x' Hq']]].
    split; [exact Hpc'|]. split; [congruence|].
    exists (x1 ++ x'). rewrite Hq', Hq1, app_assoc. reflexivity.
Qed.

Lemma dead_transcriber_stalls_witness :
  exists o o', run_events "honorific"%string init asr_failure_trace = Some o /\
    run_events "honorific"%string o
      [CapCheck; CapFrame [0%Q] true; CapCheck; CapFrame [0%Q] false] = Some o' /\
    audio_queue o' = [silent_frame] /\ text_log o' = [].
Proof.
  destruct (run_events "honorific"%string init asr_failure_trace) as [o|] eqn:Hrun;
    [|vm_compute in Hrun; discriminate].
  destruct (run_events "honorific"%string o
              [CapCheck; CapFrame [0%Q] true; CapCheck; CapFrame [0%Q] false]) as [o'|] eqn:Hrun';
    [|vm_compute in Hrun; injection Hrun as <-; vm_compute in Hrun'; discriminate].
  exists o, o'. split; [reflexivity|]. split; [exact Hrun'|].
  assert (Hpc : tr_pc o = TrDied "CUDA out of memory"%string /\ text_log o = []).
  { vm_compute in Hrun. injection Hrun as <-. split; reflexivity. }
  destruct Hpc as [Hpc Hl].
  destruct (dead_transcriber_stalls "honorific"%string _ _ o o' Hpc Hrun')
    as [_ [Hl' _]].
  split; [|rewrite Hl', Hl; reflexivity].
  vm_compute in Hrun. injection Hrun as <-. vm_compute in Hrun'. injection Hrun' as <-.
  reflexivity.
Defined.
